(** * TikTok AI Transcriber: a shallow embedding of the repository's logic

    The development follows the source files:
    - [src/utils/csvHelper.ts]      (module [CsvHelper]),
    - [src/App.tsx], [MatchStep]    (module [MatchStep]),
    - [src/App.tsx], [getBase64FromUrl] (module [AudioFetcher]),
    - [src/services/geminiService.ts] (module [GeminiService]),
    - [src/hooks/useLocalStorage.ts]  (module [LocalStorageHook]),
    - [src/App.tsx], [ResultsStep]  (module [ResultsStep]),
    - [src/services/apifyService.ts] (modules [ApifyService] and
      [ApifyFallback]),
    - [src/App.tsx], [ScanResultsStep] (module [ScanResultsStep]),
    - [src/App.tsx], the table of [ResultsStep] (module [ResultsView]);
    module [CsvReader] reads back a row of the exported file and module
    [Examples] holds the sample data of the concrete instances.

    Part I holds the definitions, Part II the lemmas and theorems. *)

From Stdlib Require Import ZArith NArith String Ascii List Lia.
From Stdlib Require Import Floats.SpecFloat.
From stdpp Require Import gmap strings list fin_maps.

Set Default Proof Using "Type".
Local Open Scope N_scope.

(* ===================================================================== *)
(** * Part I: definitions                                                 *)
(* ===================================================================== *)

(** ** JavaScript values shared by all source files *)

Module JS.

(** A JavaScript string is a sequence of UTF-16 code units. *)
Abbreviation jsstring := (list N).

(** JavaScript's [number] type: IEEE 754 binary64 values. *)
Abbreviation number := spec_float.

Definition num_zero : number := S754_zero false.

(** Literals of the source are written as Rocq strings (UTF-8 bytes) and
    decoded to code units by [lit]. *)
Definition cont (b : N) : N := N.land b 63.

Fixpoint utf8_decode (bs : list N) : jsstring :=
  match bs with
  | [] => []
  | b :: r =>
    if b <? 128 then b :: utf8_decode r
    else if b <? 224 then
      match r with
      | c1 :: r' => (N.shiftl (N.land b 31) 6 + cont c1) :: utf8_decode r'
      | _ => []
      end
    else if b <? 240 then
      match r with
      | c1 :: c2 :: r' =>
        (N.shiftl (N.land b 15) 12 + N.shiftl (cont c1) 6 + cont c2)
          :: utf8_decode r'
      | _ => []
      end
    else
      match r with
      | c1 :: c2 :: c3 :: r' =>
        let cp := N.shiftl (N.land b 7) 18 + N.shiftl (cont c1) 12
                  + N.shiftl (cont c2) 6 + cont c3 in
        let v := cp - 65536 in
        (55296 + N.shiftr v 10) :: (56320 + N.land v 1023) :: utf8_decode r'
      | _ => []
      end
  end.

Definition lit (s : string) : jsstring :=
  utf8_decode (map N_of_ascii (list_ascii_of_string s)).

(** Code units the source names. *)
Definition LF : N := 10.
Definition CR : N := 13.
Definition DQUOTE : N := 34.
Definition COMMA : N := 44.

(** Truthiness of a string ([Boolean(s)], [if (s)], [!s]): non-empty. *)
Definition truthy (s : jsstring) : bool :=
  match s with [] => false | _ => true end.

(** Truthiness of [obj[key]] on an object whose values are strings:
    a missing key yields [undefined]. *)
Definition truthy_at (m : gmap jsstring jsstring) (k : jsstring) : bool :=
  match m !! k with
  | Some s => truthy s
  | None => false
  end.

(** [WhiteSpace] and [LineTerminator] code points of ECMAScript, the set
    removed by [String.prototype.trim]. *)
Definition isWhiteSpace (c : N) : bool :=
  (9 <=? c) && (c <=? 13) || (c =? 32) || (c =? 160) || (c =? 5760)
  || (8192 <=? c) && (c <=? 8202) || (c =? 8232) || (c =? 8233)
  || (c =? 8239) || (c =? 8287) || (c =? 12288) || (c =? 65279).

Fixpoint trimStart (s : jsstring) : jsstring :=
  match s with
  | c :: r => if isWhiteSpace c then trimStart r else s
  | [] => []
  end.

Definition trim (s : jsstring) : jsstring :=
  rev (trimStart (rev (trimStart s))).

(** [s.split(sep)] for a one-character separator. *)
Fixpoint split (sep : N) (s : jsstring) : list jsstring :=
  match s with
  | [] => [[]]
  | c :: r =>
    if c =? sep then [] :: split sep r
    else match split sep r with
         | h :: t => (c :: h) :: t
         | [] => [[c]]
         end
  end.

(** [parts.join(sep)]. *)
Fixpoint join (sep : jsstring) (parts : list jsstring) : jsstring :=
  match parts with
  | [] => []
  | [p] => p
  | p :: rest => p ++ sep ++ join sep rest
  end.

(** [s.startsWith(prefix)]. *)
Fixpoint startsWith (prefix s : jsstring) : bool :=
  match prefix, s with
  | [], _ => true
  | p :: ps, c :: r => (p =? c) && startsWith ps r
  | _ :: _, [] => false
  end.

(** [String(n)] for a non-negative integer below 10^21: plain decimal. *)
Definition digit (d : nat) : N := 48 + N.of_nat d.

Fixpoint decimal_fuel (fuel n : nat) (acc : jsstring) : jsstring :=
  match fuel with
  | O => acc
  | S fuel' =>
    let acc' := digit (n mod 10) :: acc in
    if (n / 10 =? 0)%nat then acc' else decimal_fuel fuel' (n / 10) acc'
  end.

Definition nat_to_string (n : nat) : jsstring := decimal_fuel (S n) n [].

(** [String(b)] for a boolean. *)
Definition bool_to_string (b : bool) : jsstring :=
  if b then lit "true" else lit "false".

(** A thrown value: an [Error] object with its message, or something that
    is not an [Error] (such as a [ProgressEvent]). *)
Inductive Thrown :=
| ErrorObj (message : jsstring)
| NonError.

(** The outcome of awaiting a promise. *)
Inductive Settled (A : Type) :=
| Resolved (a : A)
| Rejected (e : Thrown).
Arguments Resolved {A} a.
Arguments Rejected {A} e.

End JS.
Import JS.

(** Literals are compared as they are written, not by decoding them. *)
#[global] Opaque lit.

(** ** [src/types.ts] *)

Module Types.

Record AuthorMeta := {
  name : jsstring;
  nickName : jsstring;
  avatar : jsstring
}.

Record VideoMeta := {
  duration : number;
  height : number;
  width : number
}.

Record MusicMeta := {
  musicName : jsstring;
  musicAuthor : jsstring;
  musicOriginal : bool
}.

Record TikTokVideo := {
  id : jsstring;
  webVideoUrl : jsstring;
  text : jsstring;
  createTime : number;
  createTimeISO : jsstring;
  authorMeta : AuthorMeta;
  diggCount : number;
  commentCount : number;
  shareCount : number;
  playCount : number;
  videoMeta : VideoMeta;
  musicMeta : MusicMeta
}.

(** [TranscriptState[url].status] *)
Inductive Status := idle | matched | loading | success | error.

Record TranscriptStateEntry := {
  status : Status;
  stateText : jsstring
}.

(** [TranscriptState] and [TranscriptCache] are objects keyed by video URL. *)
Abbreviation TranscriptState := (gmap jsstring TranscriptStateEntry).
Abbreviation TranscriptCache := (gmap jsstring jsstring).

End Types.
Import Types.

(** ** [src/utils/csvHelper.ts] *)

Module CsvHelper.

(** The character class of the pattern tested by [sanitizeCsvField]:
    double quote, comma, newline. *)
Definition isCsvSpecial (c : N) : bool :=
  (c =? DQUOTE) || (c =? COMMA) || (c =? LF).

(** [stringField.replace] of every double quote by two double quotes. *)
Definition doubleQuotes (s : jsstring) : jsstring :=
  flat_map (fun c => if c =? DQUOTE then [DQUOTE; DQUOTE] else [c]) s.

(** [sanitizeCsvField].  The argument is [None] for [null]/[undefined];
    [String(field)] is the identity on the strings [downloadCsv] passes. *)
Definition sanitizeCsvField (field : option jsstring) : jsstring :=
  match field with
  | None => [DQUOTE; DQUOTE]
  | Some stringField =>
    if existsb isCsvSpecial stringField
    then [DQUOTE] ++ doubleQuotes stringField ++ [DQUOTE]
    else stringField
  end.



Section Exporter.

(** [String(n)] for a [number], as [Array.prototype.join] applies it. *)
Variable number_to_string : number -> jsstring.

(** [transcripts[video.webVideoUrl] || 'N/A'] *)
Definition transcriptOrNA (transcripts : TranscriptCache) (video : TikTokVideo)
  : jsstring :=
  match transcripts !! webVideoUrl video with
  | Some t => if truthy t then t else lit "N/A"
  | None => lit "N/A"
  end.

(** The array built for one video, before [.join(',')]. *)
Definition rowFields (transcripts : TranscriptCache) (video : TikTokVideo)
  : list jsstring :=
  let transcript := transcriptOrNA transcripts video in
  [ sanitizeCsvField (Some (id video));
    sanitizeCsvField (Some (webVideoUrl video));
    sanitizeCsvField (Some (createTimeISO video));
    sanitizeCsvField (Some (name (authorMeta video)));
    sanitizeCsvField (Some (nickName (authorMeta video)));
    sanitizeCsvField (Some (avatar (authorMeta video)));
    sanitizeCsvField (Some (text video));
    number_to_string (diggCount video);
    number_to_string (commentCount video);
    number_to_string (shareCount video);
    number_to_string (playCount video);
    number_to_string (duration (videoMeta video));
    number_to_string (height (videoMeta video));
    number_to_string (width (videoMeta video));
    sanitizeCsvField (Some (musicName (musicMeta video)));
    sanitizeCsvField (Some (musicAuthor (musicMeta video)));
    bool_to_string (musicOriginal (musicMeta video));
    sanitizeCsvField (Some transcript) ].



End Exporter.

(** The reader side of the round trip.  The repository only writes CSV;
    the standard reader the specification refers to is written here after
    the field grammar of RFC 4180: a field is either quoted (a doubled
    quote inside stands for one quote, a single quote closes the field) or
    plain (it runs up to the next comma or line break and holds no quote).
    The reader returns the decoded field and the unread rest of the
    input. *)
Fixpoint readQuoted (s : jsstring) : option (jsstring * jsstring) :=
  match s with
  | [] => None
  | c :: r =>
    if c =? DQUOTE then
      match r with
      | c' :: r' =>
        if c' =? DQUOTE then
          match readQuoted r' with
          | Some (f, rest) => Some (DQUOTE :: f, rest)
          | None => None
          end
        else Some ([], r)
      | [] => Some ([], [])
      end
    else
      match readQuoted r with
      | Some (f, rest) => Some (c :: f, rest)
      | None => None
      end
  end.

Definition isFieldEnd (c : N) : bool :=
  (c =? COMMA) || (c =? LF) || (c =? CR).

Fixpoint readPlain (s : jsstring) : option (jsstring * jsstring) :=
  match s with
  | [] => Some ([], [])
  | c :: r =>
    if isFieldEnd c then Some ([], s)
    else if c =? DQUOTE then None
    else match readPlain r with
         | Some (f, rest) => Some (c :: f, rest)
         | None => None
         end
  end.

Definition readCsvField (s : jsstring) : option (jsstring * jsstring) :=
  match s with
  | c :: r => if c =? DQUOTE then readQuoted r else readPlain s
  | [] => Some ([], [])
  end.

(** The input that may follow a field: nothing, or a delimiter. *)
Definition fieldBoundary (rest : jsstring) : Prop :=
  match rest with
  | [] => True
  | c :: _ => isFieldEnd c = true
  end.

End CsvHelper.

(** ** [src/App.tsx]: [MatchStep] *)

Module MatchStep.

(** The component's state, with the parent's [mp3UrlMap] that
    [setMp3UrlMap] writes. *)
Record State := {
  mp3UrlsInput : jsstring;
  videoUrlsInput : jsstring;
  matchStatus : jsstring;
  matchedCount : nat;
  mp3UrlMap : gmap jsstring jsstring
}.

Definition setResult (status : jsstring) (count : nat)
    (m : gmap jsstring jsstring) (st : State) : State :=
  {| mp3UrlsInput := mp3UrlsInput st;
     videoUrlsInput := videoUrlsInput st;
     matchStatus := status;
     matchedCount := count;
     mp3UrlMap := m |}.

(** The effect run on entering the step: [setMp3UrlMap({})]. *)
Definition onMount (st : State) : State :=
  {| mp3UrlsInput := mp3UrlsInput st;
     videoUrlsInput := videoUrlsInput st;
     matchStatus := matchStatus st;
     matchedCount := matchedCount st;
     mp3UrlMap := ∅ |}.

(** [input.split('\n').map(l => l.trim()).filter(Boolean)] *)
Definition lines (input : jsstring) : list jsstring :=
  List.filter truthy (map trim (split LF input)).

(** The loop filling [userInputMap]: [set(videoLines[i], mp3Lines[i])] for
    [i] from 0; a later line overwrites an earlier one with the same video
    URL.  The loop runs only when both arrays have the same length. *)
Definition userInputMap (videoLines mp3Lines : list jsstring)
  : gmap jsstring jsstring :=
  fold_left (fun m p => <[p.1 := p.2]> m) (combine videoLines mp3Lines) ∅.

(** One step of [videos.forEach]: the pair is [(newMp3UrlMap, count)]. *)
Definition matchVideo (inputMap : gmap jsstring jsstring)
    (acc : gmap jsstring jsstring * nat) (video : TikTokVideo)
  : gmap jsstring jsstring * nat :=
  match inputMap !! webVideoUrl video with
  | Some mp3 => (<[webVideoUrl video := mp3]> acc.1, S acc.2)
  | None => acc
  end.

Definition matchVideos (inputMap : gmap jsstring jsstring)
    (videos : list TikTokVideo) : gmap jsstring jsstring * nat :=
  fold_left (matchVideo inputMap) videos (∅, O).

Definition errEmptyInput : jsstring :=
  lit "Lỗi: Vui lòng nhập URL vào cả hai ô.".
Definition errCountMismatch : jsstring :=
  lit "Lỗi: Số lượng URL MP3 không khớp với số lượng URL video.".
Definition msgMatched (count total : nat) : jsstring :=
  lit "Đã đối chiếu thành công " ++ nat_to_string count ++ lit " trên "
  ++ nat_to_string total ++ lit " video đã quét.".
Definition msgNoMatch : jsstring :=
  lit "Không tìm thấy video trùng khớp. Vui lòng kiểm tra lại các URL video có khớp với danh sách video đã quét ở Bước 1 không.".

Definition handleMatch (videos : list TikTokVideo) (st : State) : State :=
  let mp3Lines := lines (mp3UrlsInput st) in
  let videoLines := lines (videoUrlsInput st) in
  if (length mp3Lines =? 0)%nat || (length videoLines =? 0)%nat then
    setResult errEmptyInput O ∅ st
  else if negb (length mp3Lines =? length videoLines)%nat then
    setResult errCountMismatch O ∅ st
  else
    let inputMap := userInputMap videoLines mp3Lines in
    let '(newMp3UrlMap, count) := matchVideos inputMap videos in
    if (0 <? count)%nat then
      setResult (msgMatched count (length videos)) count newMp3UrlMap st
    else
      setResult msgNoMatch count newMp3UrlMap st.

(** Matching failed: the status is one of the two error messages, the
    ones starting with the error prefix. *)
Definition matchFailed (st : State) : bool :=
  startsWith (lit "Lỗi:") (matchStatus st).


(** The known scanned set: the URLs of the scanned videos. *)
Definition knownSet (videos : list TikTokVideo) : gset jsstring :=
  list_to_set (map webVideoUrl videos).

(** The audio URL on the last line whose video URL is [k]. *)
Definition positional (videoLines mp3Lines : list jsstring)
    (k audio : jsstring) : Prop :=
  ∃ i : nat, videoLines !! i = Some k ∧ mp3Lines !! i = Some audio ∧
             ∀ j : nat, (i < j)%nat → videoLines !! j ≠ Some k.

End MatchStep.

(** ** [src/App.tsx]: [getBase64FromUrl] *)

Module AudioFetcher.

(** What the browser does with the request; the function's only input
    besides the URL. *)

(** [FileReader.readAsDataURL]: the load ends with a data URL in
    [reader.result], or the reader reports an error. *)
Inductive ReaderEnv :=
| ReaderLoads (dataUrl : jsstring)
| ReaderFails.

(** [response.blob()]: the blob with its [type], or a rejection. *)
Record BlobEnv := {
  blobType : jsstring;
  reader : ReaderEnv
}.

(** [fetch(url)]: a response, or a rejection (no connection, or a
    cross-origin request the browser blocks). *)
Record ResponseEnv := {
  ok : bool;
  statusCode : nat;
  blob : Settled BlobEnv
}.

Abbreviation FetchEnv := (Settled ResponseEnv).

Definition corsMessage : jsstring :=
  lit "Could not fetch audio. This may be a CORS issue. Ensure the audio URL allows cross-origin requests.".

(** The statements of the [try] block up to [return new Promise(...)]:
    a thrown value, or the blob handed to the reader. *)
Definition tryBody (env : FetchEnv) : Thrown + BlobEnv :=
  match env with
  | Rejected e => inl e
  | Resolved response =>
    if negb (ok response) then
      inl (ErrorObj (lit "Network response was not ok, status: "
                     ++ nat_to_string (statusCode response)))
    else
      match blob response with
      | Rejected e => inl e
      | Resolved b =>
        let mimeType := blobType b in
        if negb (startsWith (lit "audio/") mimeType) then
          inl (ErrorObj (lit "Fetched file is not an audio file. Type: "
                         ++ mimeType))
        else inr b
      end
  end.

(** The promise created inside the [try] block.  [onerror] rejects it with
    the reader's event; [onloadend] takes [dataUrl.split(',')[1]] and
    resolves when that is a non-empty string. *)
Definition readerPromise (b : BlobEnv) : Settled (jsstring * jsstring) :=
  match reader b with
  | ReaderFails => Rejected NonError
  | ReaderLoads dataUrl =>
    match split COMMA dataUrl !! 1%nat with
    | Some base64 =>
      if truthy base64 then Resolved (base64, blobType b)
      else Rejected (ErrorObj (lit "Could not convert file to base64."))
    | None => Rejected (ErrorObj (lit "Could not convert file to base64."))
    end
  end.

(** [getBase64FromUrl]: the settled result and what [console.error]
    received.  The [catch] block handles what the [try] block throws; the
    promise is returned without [await], so the async function adopts it
    and a rejection of it reaches the caller as it is. *)
Definition getBase64FromUrl (env : FetchEnv)
  : Settled (jsstring * jsstring) * list Thrown :=
  match tryBody env with
  | inl e => (Rejected (ErrorObj corsMessage), [e])
  | inr b => (readerPromise b, [])
  end.

(** The condition that makes a fetch fail, read off the environment. *)
Inductive FailureCondition :=
| TransportFailure
| NonAudioContentType
| EncodingFailure.

Definition failureCondition (env : FetchEnv) : option FailureCondition :=
  match env with
  | Rejected _ => Some TransportFailure
  | Resolved response =>
    if negb (ok response) then Some TransportFailure
    else
      match blob response with
      | Rejected _ => Some TransportFailure
      | Resolved b =>
        if negb (startsWith (lit "audio/") (blobType b))
        then Some NonAudioContentType
        else match readerPromise b with
             | Rejected _ => Some EncodingFailure
             | Resolved _ => None
             end
      end
  end.

End AudioFetcher.

(** ** [src/services/geminiService.ts] *)

Module GeminiService.

(** The environment is the outcome of [ai.models.generateContent]: a
    response whose [text] may be undefined, or a rejection. *)
Abbreviation GenerateEnv := (Settled (option jsstring)).

Definition noTranscriptMessage : jsstring :=
  lit "Gemini không trả về lời thoại.".

Definition transcribeAudioWithGemini (base64Audio mimeType apiKey : jsstring)
    (env : GenerateEnv) : Settled jsstring :=
  if negb (truthy apiKey) then
    Rejected (ErrorObj (lit "Google AI API Key is not provided."))
  else
    match env with
    | Resolved (Some transcript) =>
      if truthy transcript then Resolved transcript
      else Rejected (ErrorObj noTranscriptMessage)
    | Resolved None => Rejected (ErrorObj noTranscriptMessage)
    | Rejected (ErrorObj message) => Rejected (ErrorObj message)
    | Rejected NonError =>
      Rejected (ErrorObj (lit "Lỗi không xác định khi gọi Gemini."))
    end.

End GeminiService.

(** ** [src/hooks/useLocalStorage.ts] *)

Module LocalStorageHook.

Section Hook.
Context {T : Type}.

(** The hook's React state and the item stored under its key in
    [window.localStorage].  [JSON.stringify] and [JSON.parse] are inverse
    to each other on the values stored here, so the item is kept as the
    value it encodes; [setItem] is taken to succeed. *)
Record Hook := {
  storedValue : T;
  localStorageItem : option T
}.

(** The initial state: the stored item if there is one, else the initial
    value. *)
Definition useLocalStorage (item : option T) (initialValue : T) : Hook :=
  {| storedValue := match item with Some v => v | None => initialValue end;
     localStorageItem := item |}.

(** [setValue]: a value, or an updater applied to the latest state. *)
Definition setValue (value : T + (T -> T)) (h : Hook) : Hook :=
  let valueToStore :=
    match value with
    | inl v => v
    | inr f => f (storedValue h)
    end in
  {| storedValue := valueToStore; localStorageItem := Some valueToStore |}.

End Hook.
Arguments Hook T : clear implicits.

End LocalStorageHook.

(** ** [src/App.tsx]: [ResultsStep] and [runTranscription] *)

Module ResultsStep.
Import LocalStorageHook.

(** Every effect of a run, in the order the code performs it. *)
Inductive Event :=
| CallGetBase64 (mp3Url : option jsstring)
| CallTranscribe (base64 mimeType apiKey : jsstring)
| AwaitDelay (ms : nat)
| SetStatus (s : jsstring)
| SetTranscriptState (url : jsstring) (entry : TranscriptStateEntry)
| SetTranscriptCache (url transcript : jsstring)
| SetIsProcessing (b : bool).

(** The component's state: [status], [isProcessing], the ref
    [stopRequest.current], the parent's [transcriptStates] and the
    [transcriptCache] hook, and the log of effects. *)
Record State := {
  status : jsstring;
  isProcessing : bool;
  stopRequest : bool;
  transcriptStates : TranscriptState;
  transcriptCache : Hook TranscriptCache;
  trace : list Event
}.

Definition log (e : Event) (st : State) : State :=
  {| status := status st; isProcessing := isProcessing st;
     stopRequest := stopRequest st;
     transcriptStates := transcriptStates st;
     transcriptCache := transcriptCache st;
     trace := trace st ++ [e] |}.

Definition setStatus (s : jsstring) (st : State) : State :=
  {| status := s; isProcessing := isProcessing st;
     stopRequest := stopRequest st;
     transcriptStates := transcriptStates st;
     transcriptCache := transcriptCache st;
     trace := trace st ++ [SetStatus s] |}.

Definition setIsProcessing (b : bool) (st : State) : State :=
  {| status := status st; isProcessing := b;
     stopRequest := stopRequest st;
     transcriptStates := transcriptStates st;
     transcriptCache := transcriptCache st;
     trace := trace st ++ [SetIsProcessing b] |}.

Definition setStopRequest (b : bool) (st : State) : State :=
  {| status := status st; isProcessing := isProcessing st;
     stopRequest := b;
     transcriptStates := transcriptStates st;
     transcriptCache := transcriptCache st;
     trace := trace st |}.

(** [setTranscriptStates(prev => ({ ...prev, [url]: entry }))] *)
Definition setTranscriptState (url : jsstring) (entry : TranscriptStateEntry)
    (st : State) : State :=
  {| status := status st; isProcessing := isProcessing st;
     stopRequest := stopRequest st;
     transcriptStates := <[url := entry]> (transcriptStates st);
     transcriptCache := transcriptCache st;
     trace := trace st ++ [SetTranscriptState url entry] |}.

(** [setTranscriptCache(prev => ({ ...prev, [url]: transcript }))], through
    the hook's [setValue]. *)
Definition setTranscriptCache (url transcript : jsstring) (st : State)
  : State :=
  {| status := status st; isProcessing := isProcessing st;
     stopRequest := stopRequest st;
     transcriptStates := transcriptStates st;
     transcriptCache :=
       setValue (inr (fun prev : TranscriptCache => <[url := transcript]> prev))
                (transcriptCache st);
     trace := trace st ++ [SetTranscriptCache url transcript] |}.

(** [handleStopProcessing], the handler of the stop button. *)
Definition handleStopProcessing (st : State) : State :=
  setStatus (lit "Đang yêu cầu dừng...") (setStopRequest true st).

(** The cleanup of the effect: [stopRequest.current = true]. *)
Definition cleanup (st : State) : State := setStopRequest true st.

(** What may happen to the stop signal while the run is suspended in an
    [await]: nothing, a click on the stop button, or the teardown of the
    component.  Both only set the signal; the one statement that clears
    it is the first of [runTranscription], and the model follows one call
    of [runTranscription] at a time. *)
Inductive StopArrival := NoStop | UserStop | Teardown.

Definition arrive (a : StopArrival) (st : State) : State :=
  match a with
  | NoStop => st
  | UserStop => handleStopProcessing st
  | Teardown => cleanup st
  end.

(** The environment of the iteration for one item: the outcomes of the two
    calls and what arrives during each of the three suspensions. *)
Record ItemEnv := {
  audio : AudioFetcher.FetchEnv;
  duringFetch : StopArrival;
  gemini : GeminiService.GenerateEnv;
  duringTranscribe : StopArrival;
  duringDelay : StopArrival
}.

(** The environment of a run, by loop index. *)
Abbreviation Env := (nat -> ItemEnv).

Definition API_CALL_DELAY_MS : nat := 4000.

Definition msgStopped (successCount : nat) : jsstring :=
  lit "Quá trình đã được người dùng dừng lại. " ++ nat_to_string successCount
  ++ lit " bản ghi đã được tạo.".

Definition msgCompleted (successCount : nat) : jsstring :=
  lit "Hoàn tất phiên âm. Đã tạo mới " ++ nat_to_string successCount
  ++ lit " bản ghi.".

Definition msgProcessing (i len : nat) (nick : jsstring) : jsstring :=
  lit "Đang xử lý " ++ nat_to_string (i + 1) ++ lit " trên "
  ++ nat_to_string len ++ lit ": " ++ nick.

(** [videos.filter(v => mp3UrlMap[v.webVideoUrl] &&
    !transcriptCache[v.webVideoUrl])] *)
Definition inWorkSet (mp3UrlMap : gmap jsstring jsstring)
    (cache : TranscriptCache) (v : TikTokVideo) : bool :=
  truthy_at mp3UrlMap (webVideoUrl v) && negb (truthy_at cache (webVideoUrl v)).

Definition videosToTranscribe (videos : list TikTokVideo)
    (mp3UrlMap : gmap jsstring jsstring) (cache : TranscriptCache)
  : list TikTokVideo :=
  List.filter (inWorkSet mp3UrlMap cache) videos.

(** The [catch] block of the loop body. *)
Definition catchError (url : jsstring) (err : Thrown) (st : State) : State :=
  let errorMessage :=
    match err with
    | ErrorObj message => message
    | NonError => lit "Unknown error"
    end in
  setTranscriptState url
    {| Types.status := error; stateText := lit "Lỗi: " ++ errorMessage |} st.

(** The [try]/[catch] statement of the loop body; the boolean tells
    whether [successCount++] was reached. *)
Definition tryItem (geminiApiKey url : jsstring) (mp3Url : option jsstring)
    (e : ItemEnv) (st : State) : State * bool :=
  let st := log (CallGetBase64 mp3Url) st in
  let st := arrive (duringFetch e) st in
  match (AudioFetcher.getBase64FromUrl (audio e)).1 with
  | Resolved (base64, mimeType) =>
    let st := setTranscriptState url
      {| Types.status := loading; stateText := lit "Đang phiên âm với AI..." |}
      st in
    let st := log (CallTranscribe base64 mimeType geminiApiKey) st in
    let st := arrive (duringTranscribe e) st in
    match GeminiService.transcribeAudioWithGemini base64 mimeType
            geminiApiKey (gemini e) with
    | Resolved transcript =>
      let st := setTranscriptState url
        {| Types.status := success; stateText := transcript |} st in
      let st := setTranscriptCache url transcript st in
      (st, true)
    | Rejected err => (catchError url err st, false)
    end
  | Rejected err => (catchError url err st, false)
  end.

(** The body of the [for] loop after the stop check, for the item at
    index [i] of a work-set of [len] items. *)
Definition loopBody (mp3UrlMap : gmap jsstring jsstring)
    (geminiApiKey : jsstring) (env : Env) (len i : nat) (video : TikTokVideo)
    (successCount : nat) (st : State) : nat * State :=
  let url := webVideoUrl video in
  let mp3Url := mp3UrlMap !! url in
  let st := setStatus (msgProcessing i len (nickName (authorMeta video))) st in
  let st := setTranscriptState url
    {| Types.status := loading; stateText := lit "Đang tải âm thanh..." |}
    st in
  let '(st, ok) := tryItem geminiApiKey url mp3Url (env i) st in
  let successCount := if ok then S successCount else successCount in
  let st :=
    if (i <? len - 1)%nat && negb (stopRequest st)
    then arrive (duringDelay (env i)) (log (AwaitDelay API_CALL_DELAY_MS) st)
    else st in
  (successCount, st).

(** The [for] loop from index [i] on; [items] are the items from that
    index. *)
Fixpoint loop (mp3UrlMap : gmap jsstring jsstring) (geminiApiKey : jsstring)
    (env : Env) (len : nat) (items : list TikTokVideo) (i : nat)
    (successCount : nat) (st : State) : nat * State :=
  match items with
  | [] => (successCount, st)
  | video :: rest =>
    if stopRequest st then
      (successCount, setStatus (msgStopped successCount) st)
    else
      let '(successCount, st) :=
        loopBody mp3UrlMap geminiApiKey env len i video successCount st in
      loop mp3UrlMap geminiApiKey env len rest (S i) successCount st
  end.

(** [runTranscription], with the values its closure captured:
    [videos], [mp3UrlMap], [transcriptCache] and [geminiApiKey]. *)
Definition runTranscription (videos : list TikTokVideo)
    (mp3UrlMap : gmap jsstring jsstring) (cache : TranscriptCache)
    (geminiApiKey : jsstring) (env : Env) (st : State) : State :=
  let st := setStopRequest false st in
  let st := setIsProcessing true st in
  let items := videosToTranscribe videos mp3UrlMap cache in
  let '(successCount, st) :=
    loop mp3UrlMap geminiApiKey env (length items) items O O st in
  let st :=
    if negb (stopRequest st) then setStatus (msgCompleted successCount) st
    else st in
  setIsProcessing false st.

(** The state in which the loop of a run starts. *)
Definition started (st : State) : State :=
  setIsProcessing true (setStopRequest false st).




(** *** Readings of the environment and of the log *)

Definition arrived (a : StopArrival) : bool :=
  match a with NoStop => false | UserStop | Teardown => true end.

(** The result of the audio fetch of an item. *)
Definition fetched (e : ItemEnv) : Settled (jsstring * jsstring) :=
  (AudioFetcher.getBase64FromUrl (audio e)).1.

(** How the [try] block of an item ends: with the transcript, or with the
    value its [catch] block receives. *)
Definition outcome (geminiApiKey : jsstring) (e : ItemEnv) : Settled jsstring :=
  match fetched e with
  | Resolved (base64, mimeType) =>
    GeminiService.transcribeAudioWithGemini base64 mimeType geminiApiKey
                                            (gemini e)
  | Rejected err => Rejected err
  end.

(** A stop request arrives during one of the awaits of the [try] block. *)
Definition stopDuringTry (e : ItemEnv) : bool :=
  arrived (duringFetch e)
  || match fetched e with
     | Resolved _ => arrived (duringTranscribe e)
     | Rejected _ => false
     end.


(** The calls and delays of a log. *)
Definition isCall (e : Event) : bool :=
  match e with
  | CallGetBase64 _ | CallTranscribe _ _ _ | AwaitDelay _ => true
  | _ => false
  end.

Definition calls (tr : list Event) : list Event := List.filter isCall tr.

Definition isFetch (e : Event) : option (option jsstring) :=
  match e with CallGetBase64 u => Some u | _ => None end.


Definition isSuccess (e : Event) : option (jsstring * jsstring) :=
  match e with
  | SetTranscriptState url entry =>
    match Types.status entry with
    | success => Some (url, stateText entry)
    | _ => None
    end
  | _ => None
  end.

Definition isError (e : Event) : option jsstring :=
  match e with
  | SetTranscriptState url entry =>
    match Types.status entry with
    | error => Some url
    | _ => None
    end
  | _ => None
  end.

Definition isCacheWrite (e : Event) : option (jsstring * jsstring) :=
  match e with SetTranscriptCache url t => Some (url, t) | _ => None end.

(** The audio URLs fetched, the delays awaited, the items whose live
    status was set to [success] (with the text), the URLs whose live
    status was set to [error], and the cache writes, each in log order. *)
Definition fetches (tr : list Event) : list (option jsstring) :=
  omap isFetch tr.
Definition successes (tr : list Event) : list (jsstring * jsstring) :=
  omap isSuccess tr.
Definition errors (tr : list Event) : list jsstring := omap isError tr.
Definition cacheWrites (tr : list Event) : list (jsstring * jsstring) :=
  omap isCacheWrite tr.

(** No live status is set to [error] after it was set to [success]. *)
Fixpoint noRegress (tr : list Event) : Prop :=
  match tr with
  | [] => True
  | e :: rest =>
    match isSuccess e with
    | Some (url, _) => url ∉ errors rest
    | None => True
    end ∧ noRegress rest
  end.

(** The calls of the attempt on one item: the fetch, then the
    transcription when the fetch gave the audio. *)
Definition callsOf (mp3UrlMap : gmap jsstring jsstring)
    (geminiApiKey : jsstring) (e : ItemEnv) (video : TikTokVideo)
  : list Event :=
  CallGetBase64 (mp3UrlMap !! webVideoUrl video)
  :: match fetched e with
     | Resolved (base64, mimeType) =>
       [CallTranscribe base64 mimeType geminiApiKey]
     | Rejected _ => []
     end.



(** The items whose transcription call succeeds, with the text it
    returns; [items] start at index [i]. *)
Fixpoint succeeded (geminiApiKey : jsstring) (env : Env) (i : nat)
    (items : list TikTokVideo) : list (jsstring * jsstring) :=
  match items with
  | [] => []
  | video :: rest =>
    match outcome geminiApiKey (env i) with
    | Resolved t => [(webVideoUrl video, t)]
    | Rejected _ => []
    end ++ succeeded geminiApiKey env (S i) rest
  end.

(** The hook after a sequence of cache writes. *)
Definition applyWrites (ws : list (jsstring * jsstring))
    (h : Hook TranscriptCache) : Hook TranscriptCache :=
  fold_left
    (fun h w => setValue (inr (fun prev : TranscriptCache => <[w.1 := w.2]> prev)) h)
    ws h.

(** The initial state of the component for a given hook state. *)
Definition initial (h : Hook TranscriptCache) : State :=
  {| status := lit "Sẵn sàng để phiên âm."; isProcessing := false;
     stopRequest := false; transcriptStates := ∅;
     transcriptCache := h; trace := [] |}.

End ResultsStep.

(** ** [src/services/apifyService.ts]: the mapping of the raw items *)

Module ApifyService.

(** What [response.json()] returns: a JSON value.  The members of an
    object are kept in the order of the text. *)
#[warnings="-register-all"] Inductive Json :=
| JNull
| JBool (b : bool)
| JNum (n : number)
| JStr (s : jsstring)
| JArr (elements : list Json)
| JObj (members : list (jsstring * Json)).

(** The value of a member: the last one of that name, as [JSON.parse]
    keeps it. *)
Fixpoint member (key : jsstring) (members : list (jsstring * Json))
  : option Json :=
  match members with
  | [] => None
  | (k, v) :: rest =>
    match member key rest with
    | Some v' => Some v'
    | None => if decide (k = key) then Some v else None
    end
  end.

(** [value.key] for the property names this file reads, none of which is
    a property of a primitive, of an array or of [Object.prototype]:
    a [TypeError] on [null], the member of an object, [undefined] ([None])
    on everything else. *)
Definition getProp (value : Json) (key : string) : Thrown + option Json :=
  match value with
  | JNull =>
    inl (ErrorObj (lit "Cannot read properties of null (reading '"
                   ++ lit key ++ lit "')"))
  | JObj members => inr (member (lit key) members)
  | _ => inr None
  end.

(** [value?.key], where [value] may be [undefined]. *)
Definition getOpt (value : option Json) (key : string) : option Json :=
  match value with
  | None | Some JNull => None
  | Some (JObj members) => member (lit key) members
  | Some _ => None
  end.

(** [value ?? dflt] *)
Definition orElse (value : option Json) (dflt : Json) : Json :=
  match value with
  | None | Some JNull => dflt
  | Some v => v
  end.

Definition nullish (value : option Json) : bool :=
  match value with
  | None | Some JNull => true
  | Some _ => false
  end.

(** The value when it is neither [undefined] nor [null]. *)
Definition present (value : option Json) : option Json :=
  match value with
  | None | Some JNull => None
  | Some v => Some v
  end.

(** The source of [Math.random()]: the values it will return, and how
    many were drawn. *)
Record Random := {
  draw : nat -> number;
  drawn : nat
}.

Definition Math_random (r : Random) : number * Random :=
  (draw r (drawn r), {| draw := draw r; drawn := S (drawn r) |}).

(** The object built for one item.  The values come from the response
    unchecked, so a field holds whatever JSON value the item carried. *)
Record AuthorMeta := {
  name : Json;
  nickName : Json;
  avatar : Json
}.

Record VideoMeta := {
  duration : Json;
  height : Json;
  width : Json
}.

Record MusicMeta := {
  musicName : Json;
  musicAuthor : Json;
  musicOriginal : Json
}.

Record Video := {
  id : Json;
  webVideoUrl : Json;
  text : Json;
  createTime : Json;
  createTimeISO : Json;
  authorMeta : AuthorMeta;
  diggCount : Json;
  commentCount : Json;
  shareCount : Json;
  playCount : Json;
  videoMeta : VideoMeta;
  musicMeta : MusicMeta
}.

(** [new Date(0).toISOString()] *)
Definition epochISO : jsstring := lit "1970-01-01T00:00:00.000Z".

(** Sequencing of property reads that may throw. *)
#[local] Instance thrown_bind : MBind (sum Thrown) :=
  fun A B f m => match m with inl err => inl err | inr a => f a end.

Section Mapping.

(** [String(n)] for a [number], as the template literal applies it. *)
Variable number_to_string : number -> jsstring.

(** The [id] of the mapped object:
    [item.id ?? item.webVideoUrl ?? `fallback-${Math.random()}`]. *)
Definition mapId (item : Json) (r : Random) : (Thrown + Json) * Random :=
  match getProp item "id" with
  | inl err => (inl err, r)
  | inr itemId =>
    match present itemId with
    | Some v => (inr v, r)
    | None =>
      match getProp item "webVideoUrl" with
      | inl err => (inl err, r)
      | inr url =>
        match present url with
        | Some v => (inr v, r)
        | None =>
          let '(x, r') := Math_random r in
          (inr (JStr (lit "fallback-" ++ number_to_string x)), r')
        end
      end
    end
  end.

(** The other properties, in the order of the object literal. *)
Definition mapRest (item : Json) (theId : Json) : Thrown + Video :=
  url ← getProp item "webVideoUrl";
  txt ← getProp item "text";
  ct ← getProp item "createTime";
  iso ← getProp item "createTimeISO";
  am1 ← getProp item "authorMeta";
  am2 ← getProp item "authorMeta";
  am3 ← getProp item "authorMeta";
  am4 ← getProp item "authorMeta";
  digg ← getProp item "diggCount";
  comment ← getProp item "commentCount";
  share ← getProp item "shareCount";
  play ← getProp item "playCount";
  vm1 ← getProp item "videoMeta";
  vm2 ← getProp item "videoMeta";
  vm3 ← getProp item "videoMeta";
  mm1 ← getProp item "musicMeta";
  mm2 ← getProp item "musicMeta";
  mm3 ← getProp item "musicMeta";
  inr {|
    id := theId;
    webVideoUrl := orElse url (JStr []);
    text := orElse txt (JStr []);
    createTime := orElse ct (JNum num_zero);
    createTimeISO := orElse iso (JStr epochISO);
    authorMeta := {|
      name := orElse (getOpt am1 "name") (JStr (lit "Unknown"));
      nickName :=
        orElse (getOpt am2 "nickName")
               (orElse (getOpt am3 "name") (JStr (lit "Unknown")));
      avatar := orElse (getOpt am4 "avatar") (JStr []) |};
    diggCount := orElse digg (JNum num_zero);
    commentCount := orElse comment (JNum num_zero);
    shareCount := orElse share (JNum num_zero);
    playCount := orElse play (JNum num_zero);
    videoMeta := {|
      duration := orElse (getOpt vm1 "duration") (JNum num_zero);
      height := orElse (getOpt vm2 "height") (JNum num_zero);
      width := orElse (getOpt vm3 "width") (JNum num_zero) |};
    musicMeta := {|
      musicName := orElse (getOpt mm1 "musicName") (JStr (lit "N/A"));
      musicAuthor := orElse (getOpt mm2 "musicAuthor") (JStr (lit "N/A"));
      musicOriginal :=
        orElse (getOpt mm3 "musicOriginal") (JBool false) |}
  |}.

(** The callback of [rawData.map]. *)
Definition mapItem (item : Json) (r : Random) : (Thrown + Video) * Random :=
  match mapId item r with
  | (inl err, r') => (inl err, r')
  | (inr theId, r') => (mapRest item theId, r')
  end.

(** [rawData.map(...)]: the items in order; an exception ends the call. *)
Fixpoint mapItems (items : list Json) (r : Random)
  : (Thrown + list Video) * Random :=
  match items with
  | [] => (inr [], r)
  | item :: rest =>
    match mapItem item r with
    | (inl err, r') => (inl err, r')
    | (inr v, r') =>
      match mapItems rest r' with
      | (inl err, r'') => (inl err, r'')
      | (inr vs, r'') => (inr (v :: vs), r'')
      end
    end
  end.

(** The end of [fetchTikTokData], from the parsed response on: the
    [Array.isArray] check and the mapping. *)
Definition mapRawData (rawData : Json) (r : Random)
  : (Thrown + list Video) * Random :=
  match rawData with
  | JArr items => mapItems items r
  | _ => (inl (ErrorObj (lit "Apify returned an unexpected data format.")), r)
  end.

End Mapping.

(** An item carries a property when it is an object with a member of that
    name whose value is not [null]. *)
Definition carries (item : Json) (key : string) : Prop :=
  match item with
  | JObj members => nullish (member (lit key) members) = false
  | _ => False
  end.

End ApifyService.

(** ** Sample data for the concrete instances *)

Module Examples.
Import AudioFetcher ResultsStep LocalStorageHook.

(** A scanned record with the given URL and author. *)
Definition video (url nick : string) : TikTokVideo :=
  {| id := lit url; webVideoUrl := lit url; text := [];
     createTime := num_zero; createTimeISO := [];
     authorMeta := {| name := lit nick; nickName := lit nick; avatar := [] |};
     diggCount := num_zero; commentCount := num_zero;
     shareCount := num_zero; playCount := num_zero;
     videoMeta := {| duration := num_zero; height := num_zero;
                     width := num_zero |};
     musicMeta := {| musicName := []; musicAuthor := [];
                     musicOriginal := false |} |}.

Definition v1 : TikTokVideo := video "v1" "ann".
Definition v2 : TikTokVideo := video "v2" "bob".

Definition audioMap : gmap jsstring jsstring :=
  {[ lit "v1" := lit "a.mp3"; lit "v2" := lit "b.mp3";
     lit "v3" := lit "c.mp3" ]}.

Definition apiKey : jsstring := lit "key".

(** A response with an audio body. *)
Definition audioResponse : FetchEnv :=
  Resolved {| ok := true; statusCode := 200;
              blob := Resolved {| blobType := lit "audio/mpeg";
                                  reader := ReaderLoads
                                    (lit "data:audio/mpeg;base64,QUJD") |} |}.

(** A response with a web page. *)
Definition htmlResponse : FetchEnv :=
  Resolved {| ok := true; statusCode := 200;
              blob := Resolved {| blobType := lit "text/html";
                                  reader := ReaderLoads
                                    (lit "data:text/html;base64,QUJD") |} |}.

(** A request that the browser blocks or that finds no connection. *)
Definition blockedRequest : FetchEnv :=
  Rejected (ErrorObj (lit "Failed to fetch")).

(** An audio body whose data URL has nothing after the comma. *)
Definition emptyAudio : FetchEnv :=
  Resolved {| ok := true; statusCode := 200;
              blob := Resolved {| blobType := lit "audio/mpeg";
                                  reader := ReaderLoads
                                    (lit "data:audio/mpeg;base64,") |} |}.

(** An item that is fetched and transcribed to [t]. *)
Definition itemOk (t : string) : ItemEnv :=
  {| audio := audioResponse; duringFetch := NoStop;
     gemini := Resolved (Some (lit t)); duringTranscribe := NoStop;
     duringDelay := NoStop |}.

(** An item whose fetch fails. *)
Definition itemBlocked : ItemEnv :=
  {| audio := blockedRequest; duringFetch := NoStop;
     gemini := Resolved None; duringTranscribe := NoStop;
     duringDelay := NoStop |}.



(** The first item succeeds, the others fail. *)
Definition firstOk : Env :=
  fun i => match i with O => itemOk "hello" | S _ => itemBlocked end.



(** A hook with an empty cache. *)
Definition noEntry : Hook TranscriptCache := useLocalStorage None ∅.




(** A raw item with a URL and no id. *)
Definition itemWithUrl : ApifyService.Json :=
  ApifyService.JObj
    [(lit "webVideoUrl", ApifyService.JStr (lit "v1"));
     (lit "text", ApifyService.JStr (lit "hi"))].

(** Two sources of random numbers, and a printing of the numbers they
    give. *)
Definition randomHalf : ApifyService.Random :=
  {| ApifyService.draw := fun _ => S754_finite false 1 (-1);
     ApifyService.drawn := O |}.

Definition randomZero : ApifyService.Random :=
  {| ApifyService.draw := fun _ => num_zero; ApifyService.drawn := O |}.

Definition printNumber (x : number) : jsstring :=
  match x with
  | S754_zero _ => lit "0"
  | _ => lit "0.5"
  end.

End Examples.

(** ** [src/App.tsx]: [ScanResultsStep] *)

Module ScanResultsStep.

(** The text of the read-only box and of the clipboard:
    [videos.map(v => v.webVideoUrl).join('\n')]. *)
Definition videoUrls (videos : list TikTokVideo) : jsstring :=
  join [LF] (map webVideoUrl videos).

End ScanResultsStep.

(** A line that [trim] leaves as it is and [filter(Boolean)] keeps: it
    is not empty, holds no newline, and neither starts nor ends with a
    white space. *)
Definition cleanLine (u : jsstring) : Prop :=
  u ≠ [] ∧ (LF ∉ u) ∧
  (∀ c, head u = Some c → isWhiteSpace c = false) ∧
  (∀ c, last u = Some c → isWhiteSpace c = false).

(** ** [src/App.tsx]: the table of [ResultsStep], and more readings of a run *)

Module ResultsView.
Import ResultsStep LocalStorageHook.




(** The transcription calls of a log, in log order. *)
Definition isTranscribe (e : Event)
  : option (jsstring * jsstring * jsstring) :=
  match e with
  | CallTranscribe base64 mimeType apiKey => Some (base64, mimeType, apiKey)
  | _ => None
  end.

Definition transcribes (tr : list Event)
  : list (jsstring * jsstring * jsstring) :=
  omap isTranscribe tr.

(** The audio that the attempts on [items] hand to the transcription
    client; [items] start at index [i]. *)
Fixpoint audioSent (geminiApiKey : jsstring) (env : Env) (i : nat)
    (items : list TikTokVideo) : list (jsstring * jsstring * jsstring) :=
  match items with
  | [] => []
  | _ :: rest =>
    match fetched (env i) with
    | Resolved (base64, mimeType) => [(base64, mimeType, geminiApiKey)]
    | Rejected _ => []
    end ++ audioSent geminiApiKey env (S i) rest
  end.

(** The live status in which the attempt on an item leaves its URL: the
    last [setTranscriptStates] of its [try] or [catch] block. *)
Definition finalEntry (geminiApiKey : jsstring) (e : ItemEnv)
  : TranscriptStateEntry :=
  match outcome geminiApiKey e with
  | Resolved transcript =>
    {| Types.status := success; stateText := transcript |}
  | Rejected (ErrorObj message) =>
    {| Types.status := error; stateText := lit "Lỗi: " ++ message |}
  | Rejected NonError =>
    {| Types.status := error;
       stateText := lit "Lỗi: " ++ lit "Unknown error" |}
  end.

(** The live statuses after the attempts on [items], which start at
    index [i]. *)
Fixpoint settle (geminiApiKey : jsstring) (env : Env) (i : nat)
    (items : list TikTokVideo) (states : TranscriptState) : TranscriptState :=
  match items with
  | [] => states
  | video :: rest =>
    settle geminiApiKey env (S i) rest
           (<[webVideoUrl video := finalEntry geminiApiKey (env i)]> states)
  end.



(** The cache hook holds no empty transcript, in its state or in the
    stored item. *)
Definition nonEmptyCache (h : Hook TranscriptCache) : Prop :=
  (∀ k t, storedValue h !! k = Some t → t ≠ []) ∧
  (∀ stored k t, localStorageItem h = Some stored →
                 stored !! k = Some t → t ≠ []).


End ResultsView.
(** ** Reading a row of the exported file *)

Module CsvReader.
Import CsvHelper.

(** A reader of a record of [n + 1] fields: the fields are read one after
    the other with [readCsvField], a comma between two of them; it
    returns the decoded fields and the unread rest of the input. *)
Fixpoint readFields (n : nat) (s : jsstring)
  : option (list jsstring * jsstring) :=
  match readCsvField s with
  | None => None
  | Some (field, rest) =>
    match n with
    | O => Some ([field], rest)
    | S n' =>
      match rest with
      | c :: rest' =>
        if c =? COMMA then
          match readFields n' rest' with
          | Some (fields, rest'') => Some (field :: fields, rest'')
          | None => None
          end
        else None
      | [] => None
      end
    end
  end.

(** A text that can stand as an unquoted field: no delimiter, no quote. *)
Definition plainText (s : jsstring) : Prop :=
  ∀ c, c ∈ s → isFieldEnd c = false ∧ (c =? DQUOTE) = false.

(** A value whose carriage returns, if any, end up between quotes: it
    has no carriage return, or one of the characters that make
    [sanitizeCsvField] quote. *)
Definition readable (s : jsstring) : Prop :=
  CR ∈ s → existsb isCsvSpecial s = true.

Section Values.

Variable number_to_string : number -> jsstring.

(** The values of the row of a video, in the order of the headers: what
    the array of [downloadCsv] holds before its strings are sanitized. *)
Definition rowValues (transcripts : TranscriptCache) (video : TikTokVideo)
  : list jsstring :=
  [ id video;
    webVideoUrl video;
    createTimeISO video;
    name (authorMeta video);
    nickName (authorMeta video);
    avatar (authorMeta video);
    text video;
    number_to_string (diggCount video);
    number_to_string (commentCount video);
    number_to_string (shareCount video);
    number_to_string (playCount video);
    number_to_string (duration (videoMeta video));
    number_to_string (height (videoMeta video));
    number_to_string (width (videoMeta video));
    musicName (musicMeta video);
    musicAuthor (musicMeta video);
    bool_to_string (musicOriginal (musicMeta video));
    transcriptOrNA transcripts video ].

(** The strings of a video that [downloadCsv] sanitizes. *)
Definition stringValues (transcripts : TranscriptCache) (video : TikTokVideo)
  : list jsstring :=
  [ id video; webVideoUrl video; createTimeISO video;
    name (authorMeta video); nickName (authorMeta video);
    avatar (authorMeta video); text video;
    musicName (musicMeta video); musicAuthor (musicMeta video);
    transcriptOrNA transcripts video ].

End Values.

End CsvReader.

(** ** [src/services/apifyService.ts]: the items that need a made-up id *)

Module ApifyFallback.
Import ApifyService.

(** The item has neither an [id] nor a [webVideoUrl] (a member that is
    [null] counts as absent), so that its [id] is made from a random
    number; [null] itself is no such item, reading it throws. *)
Definition needsFallback (item : Json) : bool :=
  match item with
  | JNull => false
  | JObj members =>
    nullish (member (lit "id") members)
    && nullish (member (lit "webVideoUrl") members)
  | _ => true
  end.

End ApifyFallback.
(* ===================================================================== *)
(** * Part II: lemmas and theorems                                        *)
(* ===================================================================== *)

(** ** The CSV export *)

Section CsvProofs.
Import CsvHelper.



Lemma fieldBoundary_not_quote (c : N) (rest : jsstring) :
  fieldBoundary (c :: rest) → (c =? DQUOTE) = false.
Proof.
  simpl. unfold isFieldEnd. rewrite !orb_true_iff, !N.eqb_eq.
  intros [[-> | ->] | ->]; reflexivity.
Qed.

(** Reading the doubled text up to its closing quote gives the text
    back. *)
Lemma doubleQuotes_cons (c : N) (s : jsstring) :
  doubleQuotes (c :: s)
  = (if c =? DQUOTE then [DQUOTE; DQUOTE] else [c]) ++ doubleQuotes s.
Proof. reflexivity. Qed.

Lemma readQuoted_doubleQuotes (s rest : jsstring) :
  fieldBoundary rest →
  readQuoted (doubleQuotes s ++ [DQUOTE] ++ rest) = Some (s, rest).
Proof.
  intros Hrest. induction s as [| c s IH].
  - simpl. destruct rest as [| c' rest']; [reflexivity |].
    by rewrite (fieldBoundary_not_quote _ _ Hrest).
  - rewrite doubleQuotes_cons. destruct (c =? DQUOTE) eqn:Hc.
    + apply N.eqb_eq in Hc. subst c.
      change (readQuoted (DQUOTE :: DQUOTE ::
                (doubleQuotes s ++ [DQUOTE] ++ rest)) = Some (DQUOTE :: s, rest)).
      cbn [readQuoted]. rewrite N.eqb_refl.
      fold readQuoted. by rewrite IH.
    + change (readQuoted (c :: (doubleQuotes s ++ [DQUOTE] ++ rest))
              = Some (c :: s, rest)).
      cbn [readQuoted]. rewrite Hc. by rewrite IH.
Qed.

Lemma sanitizeCsvField_quoted (s : jsstring) :
  existsb isCsvSpecial s = true →
  sanitizeCsvField (Some s) = [DQUOTE] ++ doubleQuotes s ++ [DQUOTE].
Proof. intros H. unfold sanitizeCsvField. by rewrite H. Qed.

Lemma sanitizeCsvField_plain (s : jsstring) :
  existsb isCsvSpecial s = false → sanitizeCsvField (Some s) = s.
Proof. intros H. unfold sanitizeCsvField. by rewrite H. Qed.



(** A lone carriage return is not in the pattern: such a value is emitted
    unchanged. *)
Remark sanitizeCsvField_carriage_return :
  sanitizeCsvField (Some [97; CR; 98]) = [97; CR; 98].
Proof. reflexivity. Qed.

Variable number_to_string : number → jsstring.





End CsvProofs.

Section CsvInstances.
Import CsvHelper Examples.


End CsvInstances.

(** ** The item matcher *)

Section MatchProofs.
Import MatchStep.

Implicit Types (videos : list TikTokVideo) (st : State).
Implicit Types (k audio : jsstring) (m im : gmap jsstring jsstring).

(** Where a key ends up after a run of [set] calls: at the value of its
    last pair, or where it was before. *)
Lemma fold_set_lookup (ps : list (jsstring * jsstring)) m k audio :
  fold_left (fun m p => <[p.1 := p.2]> m) ps m !! k = Some audio ↔
  (∃ i : nat, ps !! i = Some (k, audio) ∧
     ∀ (j : nat) (x : jsstring), (i < j)%nat → ps !! j ≠ Some (k, x)) ∨
  ((∀ (j : nat) (x : jsstring), ps !! j ≠ Some (k, x)) ∧ m !! k = Some audio).
Proof.
  revert m. induction ps as [| [k0 v0] ps IH]; intros m.
  - simpl. split.
    + intros H. right. split; [intros j x; by rewrite lookup_nil | done].
    + intros [(i & Hi & _) | [_ H]]; [by rewrite lookup_nil in Hi | done].
  - simpl. rewrite IH. split.
    + intros [(i & Hi & Hlast) | [Hnone Hm]].
      * left. exists (S i). split; [done |].
        intros [| j] x Hj; [lia |]. simpl. apply Hlast. lia.
      * destruct (decide (k0 = k)) as [-> | Hne].
        -- rewrite lookup_insert_eq in Hm. injection Hm as ->.
           left. exists O. split; [done |].
           intros [| j] x Hj; [lia |]. apply Hnone.
        -- rewrite lookup_insert_ne in Hm by done.
           right. split; [| done].
           intros [| j] x; [simpl; congruence | apply Hnone].
    + intros [([| i] & Hi & Hlast) | [Hnone Hm]].
      * simpl in Hi. injection Hi as -> ->.
        right. split.
        -- intros j x. apply (Hlast (S j) x). lia.
        -- apply lookup_insert_eq.
      * left. exists i. split; [done |].
        intros j x Hj. apply (Hlast (S j) x). lia.
      * right. split.
        -- intros j x. apply (Hnone (S j) x).
        -- destruct (decide (k0 = k)) as [-> | Hne].
           ++ by specialize (Hnone O v0).
           ++ by rewrite lookup_insert_ne.
Qed.

Lemma lookup_combine_Some (vl ml : list jsstring) (i : nat) k audio :
  combine vl ml !! i = Some (k, audio) ↔ vl !! i = Some k ∧ ml !! i = Some audio.
Proof.
  revert ml i. induction vl as [| v vl IH]; intros [| a ml] [| i]; simpl;
    try (split; [done | intros [? ?]; done]).
  - split; [by intros [= -> ->] | by intros [[= ->] [= ->]]].
  - apply IH.
Qed.


(** The map built from the two line arrays holds, for each video line,
    the audio line at the position of its last occurrence. *)
Lemma userInputMap_lookup (vl ml : list jsstring) k audio :
  length vl = length ml →
  userInputMap vl ml !! k = Some audio ↔ positional vl ml k audio.
Proof.
  intros Hlen. unfold userInputMap, positional. rewrite fold_set_lookup.
  split.
  - intros [(i & Hi & Hlast) | [_ H]]; [| by rewrite lookup_empty in H].
    apply lookup_combine_Some in Hi as [Hv Ha].
    exists i. split; [done |]. split; [done |].
    intros j Hj Hvj.
    destruct (ml !! j) as [x |] eqn:Hx.
    + apply (Hlast j x Hj). by apply lookup_combine_Some.
    + apply lookup_lt_Some in Hvj. apply lookup_ge_None in Hx. lia.
  - intros (i & Hv & Ha & Hlast). left. exists i.
    split; [by apply lookup_combine_Some |].
    intros j x Hj Hc. apply lookup_combine_Some in Hc as [Hc _].
    by apply (Hlast j).
Qed.


(** [videos.forEach]: the keys added are the URLs of scanned videos that
    the input map knows, with the input map's value. *)
Lemma matchVideos_fold_lookup im videos m (c : nat) k :
  (fold_left (matchVideo im) videos (m, c)).1 !! k
  = match im !! k with
    | Some audio => if decide (k ∈ map webVideoUrl videos) then Some audio
                    else m !! k
    | None => m !! k
    end.
Proof.
  revert m c. induction videos as [| v videos IH]; intros m c.
  - cbn [fold_left map fst]. destruct (im !! k); [| done].
    destruct (decide _) as [H | H]; [by apply elem_of_nil in H | done].
  - cbn [fold_left map]. unfold matchVideo at 2.
    destruct (im !! webVideoUrl v) as [a |] eqn:Hv; cbn [fst snd].
    + rewrite IH. destruct (im !! k) as [audio |] eqn:Hk.
      * destruct (decide (k = webVideoUrl v)) as [-> | Hne].
        -- rewrite lookup_insert_eq.
           destruct (decide (webVideoUrl v ∈ webVideoUrl v :: _)) as [_ | H];
             [| exfalso; apply H; left].
           destruct (decide _); congruence.
        -- rewrite lookup_insert_ne by done.
           destruct (decide (k ∈ map webVideoUrl videos)) as [Hin | Hnin];
             destruct (decide (k ∈ webVideoUrl v :: _)) as [Hin' | Hnin'];
             try done.
           ++ exfalso. apply Hnin'. by right.
           ++ apply elem_of_cons in Hin' as [? | ?]; done.
      * destruct (decide (k = webVideoUrl v)) as [-> | Hne]; [congruence |].
        by rewrite lookup_insert_ne.
    + rewrite IH. destruct (im !! k) as [audio |] eqn:Hk; [| done].
      destruct (decide (k ∈ map webVideoUrl videos)) as [Hin | Hnin];
        destruct (decide (k ∈ webVideoUrl v :: _)) as [Hin' | Hnin'];
        try done.
      * exfalso. apply Hnin'. by right.
      * apply elem_of_cons in Hin' as [-> | ?]; [congruence | done].
Qed.

Lemma matchVideos_lookup im videos k audio :
  (matchVideos im videos).1 !! k = Some audio ↔
  k ∈ knownSet videos ∧ im !! k = Some audio.
Proof.
  unfold matchVideos, knownSet. rewrite matchVideos_fold_lookup.
  rewrite elem_of_list_to_set, lookup_empty.
  destruct (im !! k) as [a |]; [| split; [done | by intros [_ ?]]].
  destruct (decide _) as [Hin | Hnin].
  - split; [by intros [= ->] | by intros [_ [= ->]]].
  - split; [done | by intros [? _]].
Qed.






(** The three ways [handleMatch] ends. *)
Lemma handleMatch_empty videos st :
  lines (mp3UrlsInput st) = [] ∨ lines (videoUrlsInput st) = [] →
  handleMatch videos st = setResult errEmptyInput O ∅ st.
Proof.
  intros H. unfold handleMatch.
  by destruct H as [-> | ->]; simpl; rewrite ?orb_true_r.
Qed.

Lemma handleMatch_mismatch videos st :
  lines (mp3UrlsInput st) ≠ [] → lines (videoUrlsInput st) ≠ [] →
  length (lines (mp3UrlsInput st)) ≠ length (lines (videoUrlsInput st)) →
  handleMatch videos st = setResult errCountMismatch O ∅ st.
Proof.
  intros Ha Hv Hlen. unfold handleMatch.
  destruct (lines (mp3UrlsInput st)) as [| a al]; [by destruct Ha |].
  destruct (lines (videoUrlsInput st)) as [| v vl]; [by destruct Hv |].
  cbn [length Nat.eqb orb].
  apply Nat.eqb_neq in Hlen. simpl in Hlen. rewrite Hlen.
  cbn [negb]. reflexivity.
Qed.

Lemma handleMatch_matched videos st :
  lines (mp3UrlsInput st) ≠ [] → lines (videoUrlsInput st) ≠ [] →
  length (lines (mp3UrlsInput st)) = length (lines (videoUrlsInput st)) →
  let r := matchVideos (userInputMap (lines (videoUrlsInput st))
                                     (lines (mp3UrlsInput st))) videos in
  handleMatch videos st
  = setResult (if (0 <? r.2)%nat then msgMatched r.2 (length videos)
               else msgNoMatch) r.2 r.1 st.
Proof.
  intros Ha Hv Hlen r. unfold handleMatch. fold r.
  destruct (lines (mp3UrlsInput st)) as [| a al] eqn:Ea; [by destruct Ha |].
  destruct (lines (videoUrlsInput st)) as [| v vl] eqn:Ev; [by destruct Hv |].
  cbn [length Nat.eqb orb].
  apply Nat.eqb_eq in Hlen. simpl in Hlen. rewrite Hlen. cbn [negb].
  destruct r as [M c]. cbn [fst snd]. by destruct (0 <? c)%nat.
Qed.

Lemma msgMatched_not_error (count total : nat) :
  startsWith (lit "Lỗi:") (msgMatched count total) = false.
Proof. by vm_compute. Qed.

Lemma handleMatch_matched_not_failed videos st :
  lines (mp3UrlsInput st) ≠ [] → lines (videoUrlsInput st) ≠ [] →
  length (lines (mp3UrlsInput st)) = length (lines (videoUrlsInput st)) →
  matchFailed (handleMatch videos st) = false.
Proof.
  intros Ha Hv Hlen.
  rewrite (handleMatch_matched videos st Ha Hv Hlen). cbn zeta.
  unfold matchFailed. cbn [matchStatus setResult].
  destruct (0 <? _)%nat; [apply msgMatched_not_error | reflexivity].
Qed.



(** C6.  Matching fails exactly when, after the blank lines are dropped,
    one of the two inputs holds no line or the two hold different numbers
    of lines, whatever the lines and the scanned videos are; a failed
    matching leaves the empty mapping and the matched count zero. *)
Theorem handleMatch_fails_iff videos st :
  (matchFailed (handleMatch videos st) = true ↔
     lines (mp3UrlsInput st) = [] ∨ lines (videoUrlsInput st) = [] ∨
     length (lines (mp3UrlsInput st)) ≠ length (lines (videoUrlsInput st))) ∧
  (matchFailed (handleMatch videos st) = true →
     mp3UrlMap (handleMatch videos st) = ∅ ∧
     matchedCount (handleMatch videos st) = O).
Proof.
  destruct (decide (lines (mp3UrlsInput st) = [])) as [Ha | Ha].
  { rewrite (handleMatch_empty videos st) by by left. by split; [split |]; auto. }
  destruct (decide (lines (videoUrlsInput st) = [])) as [Hv | Hv].
  { rewrite (handleMatch_empty videos st) by by right. by split; [split |]; auto. }
  destruct (decide (length (lines (mp3UrlsInput st))
                    = length (lines (videoUrlsInput st)))) as [Hlen | Hlen].
  - rewrite (handleMatch_matched_not_failed videos st Ha Hv Hlen).
    split; [split |]; [done | | done].
    intros [? | [? | ?]]; done.
  - rewrite (handleMatch_mismatch videos st Ha Hv Hlen).
    by split; [split |]; auto.
Qed.

(** A single audio line against two video lines. *)
Lemma handleMatch_fails_iff_witness :
  let st := {| mp3UrlsInput := lit "a.mp3";
               videoUrlsInput := lit "v1" ++ [LF] ++ lit "v2";
               matchStatus := []; matchedCount := 7%nat;
               mp3UrlMap := {[ lit "v0" := lit "z.mp3" ]} |} in
  matchFailed (handleMatch [] st) = true ∧
  mp3UrlMap (handleMatch [] st) = ∅ ∧
  matchedCount (handleMatch [] st) = O.
Proof.
  intros st.
  destruct (handleMatch_fails_iff [] st) as [Hiff Hclear].
  assert (Hfail : matchFailed (handleMatch [] st) = true).
  { apply Hiff. right; right. by vm_compute. }
  split; [exact Hfail | exact (Hclear Hfail)].
Defined.

End MatchProofs.

(** ** The pipeline controller *)

Section PipelineProofs.
Import ResultsStep LocalStorageHook.

Variables (P : gmap jsstring jsstring) (key : jsstring) (env : Env).

Implicit Types (st : State) (tr ext : list Event) (v : TikTokVideo).
Implicit Types (items : list TikTokVideo) (c i len : nat).

(** *** Readings of a log that was extended *)

Lemma fetches_app tr ext : fetches (tr ++ ext) = fetches tr ++ fetches ext.
Proof. apply omap_app. Qed.
Lemma successes_app tr ext :
  successes (tr ++ ext) = successes tr ++ successes ext.
Proof. apply omap_app. Qed.
Lemma errors_app tr ext : errors (tr ++ ext) = errors tr ++ errors ext.
Proof. apply omap_app. Qed.
Lemma cacheWrites_app tr ext :
  cacheWrites (tr ++ ext) = cacheWrites tr ++ cacheWrites ext.
Proof. apply omap_app. Qed.

(** The calls of a log carry its fetches and its delays. *)
Lemma fetches_calls tr : fetches (calls tr) = fetches tr.
Proof.
  induction tr as [| e tr IH]; [done |].
  destruct e; simpl; by rewrite ?IH.
Qed.


Lemma noRegress_app tr ext :
  noRegress tr → noRegress ext →
  (∀ u, u ∈ (successes tr).*1 → u ∉ errors ext) →
  noRegress (tr ++ ext).
Proof.
  induction tr as [| e tr IH]; intros Htr Hext Hdisj; [done |].
  destruct Htr as [He Htr]. simpl. split.
  - destruct (isSuccess e) as [[u t] |] eqn:Hs; [| done].
    rewrite errors_app. apply not_elem_of_app. split; [done |].
    apply Hdisj. unfold successes. simpl. rewrite Hs. left.
  - apply IH; [done .. |]. intros u Hu. apply Hdisj.
    unfold successes in *. simpl. destruct (isSuccess e); [by right | done].
Qed.


(** *** The hook after the writes of a log *)

Lemma applyWrites_app (ws ws' : list (jsstring * jsstring))
    (h : Hook TranscriptCache) :
  applyWrites (ws ++ ws') h = applyWrites ws' (applyWrites ws h).
Proof. apply fold_left_app. Qed.



(** *** One iteration *)

Ltac itemCases e :=
  unfold loopBody, tryItem, outcome, stopDuringTry, callsOf, fetched;
  destruct (AudioFetcher.getBase64FromUrl (audio e)).1 as [[b m] | err];
  [ destruct (GeminiService.transcribeAudioWithGemini b m key (gemini e))
      as [t | err];
    destruct (duringFetch e), (duringTranscribe e)
  | destruct (duringFetch e) ].

Lemma loopBody_spec len i v c st :
  let e := env i in
  let stop1 := stopRequest st || stopDuringTry e in
  let delayed := (i <? len - 1)%nat && negb stop1 in
  let r := loopBody P key env len i v c st in
  ∃ ext,
    trace r.2 = trace st ++ ext ∧
    calls ext = callsOf P key e v
                ++ (if delayed then [AwaitDelay API_CALL_DELAY_MS] else []) ∧
    successes ext = match outcome key e with
                    | Resolved t => [(webVideoUrl v, t)]
                    | Rejected _ => []
                    end ∧
    cacheWrites ext = successes ext ∧
    errors ext = match outcome key e with
                 | Resolved _ => []
                 | Rejected _ => [webVideoUrl v]
                 end ∧
    noRegress ext ∧
    r.1 = (c + length (successes ext))%nat ∧
    stopRequest r.2 = stop1 || delayed && arrived (duringDelay e) ∧
    transcriptCache r.2 = applyWrites (cacheWrites ext) (transcriptCache st).
Proof.
  intros e stop1 delayed r. subst r delayed stop1 e.
  itemCases (env i).
  all: destruct (stopRequest st) eqn:Hs, (i <? len - 1)%nat.
  all: try destruct (duringDelay (env i)).
  all: cbn -[lit nat_to_string msgProcessing API_CALL_DELAY_MS];
       rewrite ?Hs;
       cbn -[lit nat_to_string msgProcessing API_CALL_DELAY_MS];
       rewrite <- ?app_assoc.
  all: eexists; split; [reflexivity |].
  all: cbn -[lit nat_to_string msgProcessing API_CALL_DELAY_MS].
  all: repeat split; auto using not_elem_of_nil; lia.
Qed.

(** *** The loop *)

Lemma loop_stop len v items i c st :
  stopRequest st = true →
  loop P key env len (v :: items) i c st
  = (c, setStatus (msgStopped c) st).
Proof. intros H. cbn [loop]. by rewrite H. Qed.

Lemma loop_go len v items i c st :
  stopRequest st = false →
  loop P key env len (v :: items) i c st
  = loop P key env len items (S i)
         (loopBody P key env len i v c st).1
         (loopBody P key env len i v c st).2.
Proof.
  intros H. cbn [loop]. rewrite H.
  by destruct (loopBody P key env len i v c st).
Qed.




(** Whatever the environment does: the log only grows, every success is
    one of the successful transcriptions and is followed by its cache
    write, and the counter counts the successes. *)
Lemma loop_general len items i c st :
  ∃ ext,
    trace (loop P key env len items i c st).2 = trace st ++ ext ∧
    cacheWrites ext = successes ext ∧
    successes ext `prefix_of` succeeded key env i items ∧
    (∀ u, u ∈ errors ext → u ∈ map webVideoUrl items) ∧
    (loop P key env len items i c st).1 = (c + length (successes ext))%nat ∧
    transcriptCache (loop P key env len items i c st).2
    = applyWrites (cacheWrites ext) (transcriptCache st) ∧
    (NoDup (map webVideoUrl items) → noRegress ext).
Proof.
  revert i c st. induction items as [| v items IH]; intros i c st.
  { exists []. cbn. rewrite app_nil_r.
    repeat split; auto using prefix_nil; try lia;
      try (intros u Hu; by apply elem_of_nil in Hu). }
  destruct (stopRequest st) eqn:Hs.
  { rewrite (loop_stop _ _ _ _ _ _ Hs). exists [SetStatus (msgStopped c)].
    cbn -[msgStopped]. repeat split; auto using prefix_nil with lia.
    intros u Hu. by apply elem_of_nil in Hu. }
  rewrite (loop_go _ _ _ _ _ _ Hs).
  destruct (loopBody_spec len i v c st)
    as (ext1 & Htr1 & _ & Hsucc1 & Hw1 & Herr1 & Hnr1 & Hc1 & _ & Hcache1).
  cbn zeta in *.
  set (c1 := (loopBody P key env len i v c st).1) in *.
  set (st1 := (loopBody P key env len i v c st).2) in *.
  destruct (IH (S i) c1 st1)
    as (ext2 & Htr2 & Hw2 & Hsucc2 & Herr2 & Hc2 & Hcache2 & Hnr2).
  exists (ext1 ++ ext2). split; [| split; [| split; [| split; [| split; [| split]]]]].
  - by rewrite Htr2, Htr1, app_assoc.
  - by rewrite cacheWrites_app, successes_app, Hw1, Hw2.
  - rewrite successes_app, Hsucc1. cbn [succeeded]. by apply prefix_app.
  - intros u. rewrite errors_app, elem_of_app, Herr1. cbn [map].
    intros [Hu | Hu].
    + destruct (outcome key (env i)); [by apply elem_of_nil in Hu |].
      apply list_elem_of_singleton in Hu as ->. left.
    + right. by apply Herr2.
  - rewrite Hc2, Hc1, successes_app, length_app. lia.
  - by rewrite Hcache2, Hcache1, cacheWrites_app, applyWrites_app.
  - cbn [map]. intros [Hv Hnd]%NoDup_cons.
    apply noRegress_app; [done | by apply Hnr2 |].
    intros u Hu Hu'. apply Herr2 in Hu'. rewrite Hsucc1 in Hu.
    destruct (outcome key (env i)); [| by apply elem_of_nil in Hu].
    apply list_elem_of_singleton in Hu. simpl in Hu. by subst u.
Qed.




(** *** The schedule *)

Lemma fetches_callsOf (e : ItemEnv) v :
  fetches (callsOf P key e v) = [P !! webVideoUrl v].
Proof. unfold callsOf. by destruct (fetched e) as [[b m] | err]. Qed.






(** The attempts of a loop are those on the first items of its list, and
    its successes are the successful transcriptions among them. *)
Lemma loop_attempted len items i c st :
  ∃ ext (m : nat),
    trace (loop P key env len items i c st).2 = trace st ++ ext ∧
    (m ≤ length items)%nat ∧
    fetches ext = map (fun v => P !! webVideoUrl v) (take m items) ∧
    successes ext = succeeded key env i (take m items).
Proof.
  revert i c st. induction items as [| v items IH]; intros i c st.
  { exists [], O. cbn. by rewrite app_nil_r. }
  destruct (stopRequest st) eqn:Hs.
  { rewrite (loop_stop _ _ _ _ _ _ Hs). exists [SetStatus (msgStopped c)], O.
    cbn -[msgStopped]. repeat split. lia. }
  rewrite (loop_go _ _ _ _ _ _ Hs).
  destruct (loopBody_spec len i v c st)
    as (ext1 & Htr1 & Hcalls1 & Hsucc1 & _).
  cbn zeta in *.
  set (c1 := (loopBody P key env len i v c st).1) in *.
  set (st1 := (loopBody P key env len i v c st).2) in *.
  destruct (IH (S i) c1 st1) as (ext2 & m & Htr2 & Hm & Hf2 & Hsucc2).
  exists (ext1 ++ ext2), (S m). split; [| split; [| split]].
  - by rewrite Htr2, Htr1, app_assoc.
  - cbn [length]. lia.
  - rewrite fetches_app, <- (fetches_calls ext1), Hcalls1, fetches_app.
    rewrite fetches_callsOf, Hf2. cbn [take map].
    by destruct (_ && _).
  - rewrite successes_app, Hsucc1, Hsucc2. done.
Qed.

(** *** A whole run *)

Lemma runTranscription_unfold (videos : list TikTokVideo)
    (cache : TranscriptCache) st :
  let items := videosToTranscribe videos P cache in
  let r := loop P key env (length items) items O O (started st) in
  runTranscription videos P cache key env st
  = setIsProcessing false
      (if negb (stopRequest r.2) then setStatus (msgCompleted r.1) r.2
       else r.2).
Proof.
  intros items r. unfold runTranscription. fold items. unfold started in r.
  fold r. by destruct r.
Qed.







(** *** The cache during a run *)




Lemma succeeded_elem_of i items u t :
  (u, t) ∈ succeeded key env i items ↔
  ∃ (j : nat) v, items !! j = Some v ∧ webVideoUrl v = u ∧
                 outcome key (env (i + j)%nat) = Resolved t.
Proof.
  revert i. induction items as [| x items IH]; intros i.
  { cbn. split; [by intros H%elem_of_nil | by intros (j & v & H & _)]. }
  cbn [succeeded]. rewrite elem_of_app, IH. split.
  - intros [H | (j & v & Hj & Hu & Ho)].
    + exists O, x. rewrite Nat.add_0_r.
      destruct (outcome key (env i)) as [t' |]; [| by apply elem_of_nil in H].
      apply list_elem_of_singleton in H as [= -> ->]. done.
    + exists (S j), v. by rewrite <- Nat.add_succ_comm.
  - intros ([| j] & v & Hj & Hu & Ho).
    + left. rewrite Nat.add_0_r in Ho. rewrite Ho. cbn in Hj.
      injection Hj as ->. subst u. left.
    + right. exists j, v. by rewrite Nat.add_succ_comm.
Qed.

(** What every run does, whatever arrives. *)
Lemma runTranscription_general (videos : list TikTokVideo)
    (cache : TranscriptCache) st :
  let items := videosToTranscribe videos P cache in
  let st' := runTranscription videos P cache key env st in
  ∃ ext (m : nat),
    trace st' = trace st ++ ext ∧
    (m ≤ length items)%nat ∧
    fetches ext = map (fun v => P !! webVideoUrl v) (take m items) ∧
    successes ext = succeeded key env O (take m items) ∧
    cacheWrites ext = successes ext ∧
    (∀ u, u ∈ errors ext → u ∈ map webVideoUrl items) ∧
    transcriptCache st' = applyWrites (cacheWrites ext) (transcriptCache st) ∧
    (NoDup (map webVideoUrl items) → noRegress ext).
Proof.
  intros items st'. subst st'. rewrite runTranscription_unfold. fold items.
  cbn zeta.
  destruct (loop_general (length items) items O O (started st))
    as (ext & Htr & Hw & _ & Herr & _ & Hcache & Hnr).
  destruct (loop_attempted (length items) items O O (started st))
    as (ext' & m & Htr' & Hm & Hf & Hsucc).
  rewrite Htr in Htr'. apply app_inv_head in Htr'. subst ext'.
  set (r := loop P key env (length items) items 0 0 (started st)) in *.
  set (tail := if negb (stopRequest r.2)
               then [SetStatus (msgCompleted r.1); SetIsProcessing false]
               else [SetIsProcessing false]).
  assert (Htail : successes tail = [] ∧ errors tail = [] ∧
                  cacheWrites tail = [] ∧ fetches tail = [] ∧ noRegress tail).
  { unfold tail. by destruct (negb _). }
  destruct Htail as (Hts & Hte & Htw & Htf & Htn).
  exists (SetIsProcessing true :: ext ++ tail), m.
  split.
  { unfold tail. destruct (negb _);
      cbn [trace setIsProcessing setStatus]; rewrite Htr;
      cbn [started trace setIsProcessing setStopRequest];
      by rewrite <- !app_assoc. }
  split; [done |].
  change (fetches (SetIsProcessing true :: ext ++ tail))
    with (fetches (ext ++ tail)).
  change (successes (SetIsProcessing true :: ext ++ tail))
    with (successes (ext ++ tail)).
  change (cacheWrites (SetIsProcessing true :: ext ++ tail))
    with (cacheWrites (ext ++ tail)).
  change (errors (SetIsProcessing true :: ext ++ tail))
    with (errors (ext ++ tail)).
  rewrite fetches_app, successes_app, cacheWrites_app, errors_app.
  rewrite Hts, Htw, Htf, Hte, !app_nil_r.
  split; [done |]. split; [done |]. split; [done |]. split; [done |].
  split.
  - by destruct (negb _); cbn [transcriptCache setIsProcessing setStatus];
      rewrite Hcache.
  - intros Hnd. split; [done |].
    apply noRegress_app; [by apply Hnr | done |].
    intros u _. rewrite Hte. apply not_elem_of_nil.
Qed.





End PipelineProofs.
(** *** Concrete runs *)

Section PipelineInstances.
Import ResultsStep LocalStorageHook Examples.








End PipelineInstances.

(** ** The audio fetcher *)

Section FetcherProofs.
Import AudioFetcher Examples.

Lemma getBase64FromUrl_thrown (env : FetchEnv) (e : Thrown) :
  tryBody env = inl e →
  getBase64FromUrl env = (Rejected (ErrorObj corsMessage), [e]).
Proof. intros H. unfold getBase64FromUrl. by rewrite H. Qed.

(** A failure other than an encoding failure is thrown inside the [try]
    block. *)
Lemma failureCondition_thrown (env : FetchEnv) (cond : FailureCondition) :
  failureCondition env = Some cond → cond ≠ EncodingFailure →
  ∃ e, tryBody env = inl e.
Proof.
  unfold failureCondition, tryBody. intros Hc Hne.
  destruct env as [response | e]; [| by eauto].
  destruct (negb (ok response)); [by eauto |].
  destruct (blob response) as [b | e]; [| by eauto].
  destruct (negb (startsWith (lit "audio/") (blobType b))); [by eauto |].
  destruct (readerPromise b); congruence.
Qed.

(** C7, the counterexample.  A request that finds no connection and a
    response that is a web page fail for different conditions, and the
    caller receives the same error for both: nothing computed from the
    surfaced error tells the condition. *)
Lemma getBase64FromUrl_condition_lost :
  ¬ ∃ classify : Settled (jsstring * jsstring) → FailureCondition,
      ∀ (env : FetchEnv) (cond : FailureCondition),
        failureCondition env = Some cond →
        classify (getBase64FromUrl env).1 = cond.
Proof.
  intros (classify & H).
  pose proof (H blockedRequest TransportFailure eq_refl) as H1.
  assert (H2 : classify (getBase64FromUrl htmlResponse).1
               = NonAudioContentType).
  { apply H. by vm_compute. }
  assert (Hsame : (getBase64FromUrl blockedRequest).1
                  = (getBase64FromUrl htmlResponse).1)
    by by vm_compute.
  rewrite Hsame in H1. congruence.
Qed.

(** C7, as amended.  When a fetch fails by a transport failure or by a
    content type that is not audio, the caller receives an error with the
    one fixed message that names the likely cross-origin cause, the same
    for every such failure; the original error goes to the console
    only. *)
Theorem getBase64FromUrl_single_message (env : FetchEnv)
    (cond : FailureCondition) :
  failureCondition env = Some cond → cond ≠ EncodingFailure →
  ∃ original : Thrown,
    tryBody env = inl original ∧
    getBase64FromUrl env = (Rejected (ErrorObj corsMessage), [original]).
Proof.
  intros Hc Hne.
  destruct (failureCondition_thrown env cond Hc Hne) as [e He].
  exists e. split; [done |]. by apply getBase64FromUrl_thrown.
Qed.

Lemma getBase64FromUrl_single_message_witness :
  failureCondition htmlResponse = Some NonAudioContentType ∧
  ∃ original : Thrown,
    getBase64FromUrl htmlResponse
    = (Rejected (ErrorObj corsMessage), [original]).
Proof.
  assert (Hc : failureCondition htmlResponse = Some NonAudioContentType)
    by by vm_compute.
  split; [exact Hc |].
  destruct (getBase64FromUrl_single_message htmlResponse NonAudioContentType
              Hc) as (original & _ & H); [done |].
  by exists original.
Defined.

(** The promise of the reader is returned without being awaited, so its
    rejection is not wrapped: an audio body that encodes to nothing
    reaches the caller with the message of the encoding step. *)
Remark getBase64FromUrl_encoding_failure :
  failureCondition emptyAudio = Some EncodingFailure ∧
  getBase64FromUrl emptyAudio
  = (Rejected (ErrorObj (lit "Could not convert file to base64.")), []).
Proof. by vm_compute. Qed.

End FetcherProofs.

(** ** The mapping of the scan result *)

Section ApifyProofs.
Import ApifyService.

Variable number_to_string : number → jsstring.

Implicit Types (item : Json) (r : Random).

Lemma getProp_not_null item (key : string) :
  item ≠ JNull → ∃ value, getProp item key = inr value.
Proof. destruct item; intros H; try done; by eexists. Qed.

Lemma mapRest_total item (theId : Json) :
  item ≠ JNull →
  ∃ v, mapRest item theId = inr v ∧ id v = theId.
Proof.
  intros H. unfold mapRest.
  destruct item; try done; cbn; by eexists.
Qed.

(** The [id] of an item that carries an [id] or a [webVideoUrl] is read
    from the item and draws no random number. *)
Lemma mapId_carried item r :
  carries item "id" ∨ carries item "webVideoUrl" →
  ∃ theId, ∀ r', mapId number_to_string item r' = (inr theId, r').
Proof.
  unfold carries, mapId. destruct item as [| | | | | members]; try tauto.
  cbn [getProp].
  destruct (member (lit "id") members) as [[] |] eqn:Hid; cbn;
    try (intros _; eexists; intros r'; reflexivity).
  all: intros [H | H]; [done |].
  all: destruct (member (lit "webVideoUrl") members) as [[] |]; try done.
  all: eexists; intros r'; reflexivity.
Qed.

(** The [id] of any other item that is not [null] is the fallback made of
    the next random number. *)
Lemma mapId_fallback item r :
  item ≠ JNull → ¬ carries item "id" → ¬ carries item "webVideoUrl" →
  mapId number_to_string item r
  = (inr (JStr (lit "fallback-" ++ number_to_string (draw r (drawn r)))),
     {| draw := draw r; drawn := S (drawn r) |}).
Proof.
  unfold carries, mapId. destruct item as [| | | | | members]; try done.
  cbn [getProp]. intros _ Hid Hurl.
  destruct (member (lit "id") members) as [[] |];
    destruct (member (lit "webVideoUrl") members) as [[] |];
    cbn in *; done.
Qed.

Lemma mapItem_not_null item r :
  item ≠ JNull → ∃ v, (mapItem number_to_string item r).1 = inr v.
Proof.
  intros H. unfold mapItem.
  destruct (mapId number_to_string item r) as [[err | theId] r'] eqn:E.
  - exfalso. unfold mapId in E.
    destruct item; try done; cbn in E;
      repeat (match type of E with
              | context [match ?x with _ => _ end] => destruct x
              end; cbn in E); congruence.
  - destruct (mapRest_total item theId H) as (v & -> & _). by eexists.
Qed.

Lemma carries_not_null item (key : string) : carries item key → item ≠ JNull.
Proof. by destruct item. Qed.

Lemma mapItem_carried item r r' :
  carries item "id" ∨ carries item "webVideoUrl" →
  (mapItem number_to_string item r).2 = r ∧
  (mapItem number_to_string item r).1 = (mapItem number_to_string item r').1.
Proof.
  intros H. destruct (mapId_carried item r H) as [theId Hid].
  unfold mapItem. rewrite !Hid. by destruct (mapRest item theId).
Qed.

Lemma mapItems_not_null (items : list Json) r :
  Forall (fun item => item ≠ JNull) items →
  ∃ vs, (mapItems number_to_string items r).1 = inr vs ∧
        length vs = length items.
Proof.
  intros H. revert r. induction H as [| item items Hitem _ IH]; intros r.
  { by exists []. }
  cbn [mapItems].
  destruct (mapItem_not_null item r Hitem) as [v Hv].
  destruct (mapItem number_to_string item r) as [res r1]. cbn in Hv. subst res.
  destruct (IH r1) as (vs & Hvs & Hlen).
  destruct (mapItems number_to_string items r1) as [res r2]. cbn in Hvs.
  subst res. exists (v :: vs). cbn. by rewrite Hlen.
Qed.

Lemma mapItems_carried (items : list Json) r r' :
  Forall (fun item => carries item "id" ∨ carries item "webVideoUrl") items →
  (mapItems number_to_string items r).2 = r ∧
  (mapItems number_to_string items r).1
  = (mapItems number_to_string items r').1.
Proof.
  intros H. revert r r'. induction H as [| item items Hitem _ IH]; intros r r'.
  { done. }
  cbn [mapItems].
  destruct (mapItem_carried item r r' Hitem) as [Hr Hv].
  destruct (mapItem_carried item r' r Hitem) as [Hr' _].
  destruct (mapItem number_to_string item r) as [res r1].
  destruct (mapItem number_to_string item r') as [res' r1'].
  cbn in Hr, Hr', Hv. subst r1 r1' res'.
  destruct res as [err | v]; [done |].
  destruct (IH r r') as [Hr2 Hvs].
  destruct (IH r' r) as [Hr2' _].
  destruct (mapItems number_to_string items r) as [res2 r2].
  destruct (mapItems number_to_string items r') as [res2' r2'].
  cbn in Hr2, Hr2', Hvs. subst r2 r2' res2'.
  by destruct res2.
Qed.

(** C10, the counterexample.  An array that holds [null] is a JSON value
    the response can carry; reading [item.id] of [null] throws, and the
    mapping ends with that exception instead of a list of records. *)
Lemma mapRawData_null_item_throws :
  ∃ r : Random,
    (mapRawData (fun _ => lit "0.5") (JArr [JNull]) r).1
    = inl (ErrorObj (lit "Cannot read properties of null (reading 'id')")).
Proof. exists {| draw := fun _ => num_zero; drawn := O |}. by vm_compute. Qed.

(** C10, as amended.  The mapping of a list of raw items none of which is
    [null] yields one record per item, every absent field receiving its
    default; it is deterministic, and draws no random number, when every
    item carries an [id] or a [webVideoUrl]; and for an item, other than
    [null], that carries neither, the identity is the fallback text made
    of the next random number, so two runs that draw numbers printed
    differently give different identities. *)
Theorem mapItems_total_deterministic :
  (∀ (items : list Json) r,
     Forall (fun item => item ≠ JNull) items →
     ∃ vs, (mapItems number_to_string items r).1 = inr vs ∧
           length vs = length items) ∧
  (∀ (items : list Json) r r',
     Forall (fun item => carries item "id" ∨ carries item "webVideoUrl")
            items →
     (mapItems number_to_string items r).2 = r ∧
     (mapItems number_to_string items r).1
     = (mapItems number_to_string items r').1) ∧
  (∀ item r r',
     item ≠ JNull → ¬ carries item "id" → ¬ carries item "webVideoUrl" →
     ∃ v v',
       mapItem number_to_string item r
       = (inr v, {| draw := draw r; drawn := S (drawn r) |}) ∧
       (mapItem number_to_string item r').1 = inr v' ∧
       id v = JStr (lit "fallback-" ++ number_to_string (draw r (drawn r))) ∧
       id v' = JStr (lit "fallback-"
                     ++ number_to_string (draw r' (drawn r'))) ∧
       (number_to_string (draw r (drawn r))
        ≠ number_to_string (draw r' (drawn r')) → id v ≠ id v')).
Proof.
  split; [| split].
  - intros items r H. by apply mapItems_not_null.
  - intros items r r' H. by apply mapItems_carried.
  - intros item r r' Hnull Hid Hurl.
    unfold mapItem. rewrite !mapId_fallback by done.
    destruct (mapRest_total item
                (JStr (lit "fallback-" ++ number_to_string (draw r (drawn r))))
                Hnull) as (v & Hv & Hidv).
    destruct (mapRest_total item
                (JStr (lit "fallback-"
                       ++ number_to_string (draw r' (drawn r'))))
                Hnull) as (v' & Hv' & Hidv').
    exists v, v'. rewrite Hv, Hv'. repeat split; try done.
    rewrite Hidv, Hidv'. intros Hne Heq. apply Hne.
    apply (f_equal (fun j => match j with JStr s => s | _ => [] end)) in Heq.
    by apply app_inv_head in Heq.
Qed.

End ApifyProofs.

Section ApifyInstances.
Import ApifyService Examples.

(** An item with a URL and no id, an item with nothing, and a number. *)
Lemma mapItems_total_deterministic_witness :
  (∃ vs, (mapItems printNumber [itemWithUrl; JObj []; JNum num_zero]
                   randomHalf).1 = inr vs ∧ length vs = 3%nat) ∧
  (mapItems printNumber [itemWithUrl] randomHalf).1
  = (mapItems printNumber [itemWithUrl] randomZero).1 ∧
  (∃ v v', (mapItem printNumber (JObj []) randomHalf).1 = inr v ∧
           (mapItem printNumber (JObj []) randomZero).1 = inr v' ∧
           id v = JStr (lit "fallback-0.5") ∧
           id v' = JStr (lit "fallback-0") ∧
           id v ≠ id v').
Proof.
  destruct (mapItems_total_deterministic printNumber) as (Htot & Hdet & Hfb).
  split; [| split].
  - apply Htot. by repeat (apply Forall_cons; split; [done |]).
  - apply Hdet. apply Forall_cons. split; [| done]. right. by vm_compute.
  - destruct (Hfb (JObj []) randomHalf randomZero)
      as (v & v' & Hv & Hv' & Hid & Hid' & Hne); [done | by vm_compute ..|].
    exists v, v'. rewrite Hv. repeat split; try done.
    apply Hne. by vm_compute.
Defined.

(** An item with no member gets every default. *)
Example mapItem_defaults :
  (mapItem printNumber (JObj []) randomHalf).1
  = inr {| id := JStr (lit "fallback-0.5");
           webVideoUrl := JStr [];
           text := JStr [];
           createTime := JNum num_zero;
           createTimeISO := JStr (lit "1970-01-01T00:00:00.000Z");
           authorMeta := {| name := JStr (lit "Unknown");
                            nickName := JStr (lit "Unknown");
                            avatar := JStr [] |};
           diggCount := JNum num_zero;
           commentCount := JNum num_zero;
           shareCount := JNum num_zero;
           playCount := JNum num_zero;
           videoMeta := {| duration := JNum num_zero;
                           height := JNum num_zero;
                           width := JNum num_zero |};
           musicMeta := {| musicName := JStr (lit "N/A");
                           musicAuthor := JStr (lit "N/A");
                           musicOriginal := JBool false |} |}.
Proof. by vm_compute. Qed.

End ApifyInstances.
(** ** Lines: [split], [trim] and [join] *)

Section LineProofs.
Import MatchStep ScanResultsStep.

Implicit Types (s u : jsstring) (us : list jsstring) (c sep : N).

Lemma split_nonempty sep s : split sep s ≠ [].
Proof.
  induction s as [| c s IH]; [done |]. cbn [split].
  destruct (c =? sep); [done |]. by destruct (split sep s).
Qed.

(** No piece holds the separator. *)
Lemma split_pieces sep s u : u ∈ split sep s → sep ∉ u.
Proof.
  revert u. induction s as [| c s IH]; intros u; cbn [split].
  - intros ->%list_elem_of_singleton. apply not_elem_of_nil.
  - destruct (c =? sep) eqn:Hc.
    + intros [-> | Hu]%elem_of_cons; [apply not_elem_of_nil | by apply IH].
    + destruct (split sep s) as [| h t] eqn:Hs.
      * intros ->%list_elem_of_singleton.
        apply not_elem_of_cons. split; [| apply not_elem_of_nil].
        intros ->. by rewrite N.eqb_refl in Hc.
      * intros [-> | Hu]%elem_of_cons.
        -- apply not_elem_of_cons. split.
           ++ intros ->. by rewrite N.eqb_refl in Hc.
           ++ apply IH. left.
        -- apply IH. by right.
Qed.

Lemma split_no_sep sep s : sep ∉ s → split sep s = [s].
Proof.
  induction s as [| c s IH]; [done |].
  intros [Hc Hs]%not_elem_of_cons. cbn [split].
  replace (c =? sep) with false by (symmetry; by apply N.eqb_neq).
  by rewrite IH.
Qed.

Lemma split_app_sep sep u s :
  sep ∉ u → split sep (u ++ sep :: s) = u :: split sep s.
Proof.
  induction u as [| c u IH]; intros Hu.
  - cbn [app split]. by rewrite N.eqb_refl.
  - apply not_elem_of_cons in Hu as [Hc Hu]. cbn [app split].
    replace (c =? sep) with false by (symmetry; by apply N.eqb_neq).
    by rewrite IH.
Qed.

(** Splitting what was joined gives the parts back. *)
Lemma split_join sep us :
  us ≠ [] → Forall (fun u => sep ∉ u) us →
  split sep (join [sep] us) = us.
Proof.
  intros Hne H. induction H as [| u us Hu _ IH]; [done |].
  destruct us as [| v us].
  - by apply split_no_sep.
  - cbn [join]. cbn [app]. rewrite split_app_sep by done.
    f_equal. by apply IH.
Qed.

Lemma trimStart_head s c :
  head (trimStart s) = Some c → isWhiteSpace c = false.
Proof.
  induction s as [| x s IH]; [done |]. cbn [trimStart].
  destruct (isWhiteSpace x) eqn:Hx; [done |]. by intros [= <-].
Qed.

Lemma trimStart_id s :
  (∀ c, head s = Some c → isWhiteSpace c = false) → trimStart s = s.
Proof.
  destruct s as [| x s]; [done |]. intros H. cbn [trimStart].
  by rewrite (H x eq_refl).
Qed.

(** What [trimStart] gives is the end of its argument. *)
Lemma trimStart_suffix s : trimStart s `suffix_of` s.
Proof.
  induction s as [| x s IH]; [done |]. cbn [trimStart].
  destruct (isWhiteSpace x); [by apply suffix_cons_r | done].
Qed.

Lemma trimStart_keeps s c :
  last s = Some c → isWhiteSpace c = false → last (trimStart s) = Some c.
Proof.
  induction s as [| x s IH]; [done |]. intros Hl Hc. cbn [trimStart].
  destruct (isWhiteSpace x) eqn:Hx; [| done].
  destruct s as [| y s]; [cbn in Hl; congruence |].
  apply IH; [| done]. by rewrite last_cons_cons in Hl.
Qed.

Lemma head_rev s : head (rev s) = last s.
Proof.
  induction s as [| x s _] using rev_ind; [done |].
  by rewrite rev_unit, last_snoc.
Qed.

Lemma last_rev s : last (rev s) = head s.
Proof. destruct s as [| x s]; [done |]. cbn [rev]. by rewrite last_snoc. Qed.

(** A trimmed text neither starts nor ends with a white space, and
    holds only characters of the text. *)
Lemma trim_head s c : head (trim s) = Some c → isWhiteSpace c = false.
Proof.
  unfold trim. rewrite head_rev. intros Hl.
  destruct (head (trimStart s)) as [x |] eqn:Hx.
  - pose proof (trimStart_head _ _ Hx) as Hws.
    rewrite <- last_rev in Hx.
    rewrite (trimStart_keeps _ _ Hx Hws) in Hl. by injection Hl as <-.
  - destruct (trimStart s); [done | done].
Qed.

Lemma trim_last s c : last (trim s) = Some c → isWhiteSpace c = false.
Proof. unfold trim. rewrite last_rev. apply trimStart_head. Qed.

Lemma trim_elem_of s c : c ∈ trim s → c ∈ s.
Proof.
  unfold trim. intros H.
  apply list_elem_of_In, in_rev, list_elem_of_In in H.
  apply (fun H => elem_of_suffix _ _ _ H (trimStart_suffix _)) in H.
  apply list_elem_of_In, in_rev, list_elem_of_In in H.
  exact (elem_of_suffix _ _ _ H (trimStart_suffix _)).
Qed.

Lemma trim_clean u :
  (∀ c, head u = Some c → isWhiteSpace c = false) →
  (∀ c, last u = Some c → isWhiteSpace c = false) →
  trim u = u.
Proof.
  intros Hh Hl. unfold trim. rewrite (trimStart_id u Hh).
  rewrite trimStart_id; [apply rev_involutive |].
  intros c. rewrite head_rev. apply Hl.
Qed.

Lemma cleanLine_trim u : cleanLine u → trim u = u ∧ truthy u = true.
Proof.
  intros (Hne & _ & Hh & Hl). split; [by apply trim_clean |].
  by destruct u.
Qed.

End LineProofs.
(** ** More on the matching step *)

Section MatchMore.
Import MatchStep ScanResultsStep.

Implicit Types (videos : list TikTokVideo) (st : MatchStep.State).

(** Every line that [handleMatch] works with is a clean line. *)
Lemma lines_elem_clean (input l : jsstring) : l ∈ lines input → cleanLine l.
Proof.
  unfold lines. intros H. apply list_elem_of_In, filter_In in H as [H Ht].
  apply list_elem_of_In, list_elem_of_fmap in H as (p & -> & Hp).
  split; [by destruct (trim p) | split; [| split]].
  - intros Hin. apply trim_elem_of in Hin. by apply split_pieces in Hp.
  - apply trim_head.
  - apply trim_last.
Qed.

Lemma lines_of_clean (us : list jsstring) :
  Forall cleanLine us → lines (join [LF] us) = us.
Proof.
  intros H. unfold lines. destruct us as [| u us]; [by vm_compute |].
  rewrite split_join; [| done |].
  - induction H as [| x xs Hx _ IH]; [done |].
    destruct (cleanLine_trim x Hx) as [Htrim Htruthy].
    cbn [map List.filter]. rewrite Htrim, Htruthy. by rewrite IH.
  - eapply Forall_impl; [exact H |]. by intros x (_ & Hx & _).
Qed.

(** X1.  The lines that [handleMatch] reads from a box are clean: not
    empty, without a newline, without white space at either end.  Reading
    is a normalisation: the lines joined by newlines are read back as the
    same lines. *)
Theorem lines_clean (input : jsstring) :
  Forall cleanLine (lines input) ∧
  lines (join [LF] (lines input)) = lines input.
Proof.
  assert (H : Forall cleanLine (lines input)).
  { apply Forall_forall. intros l. apply lines_elem_clean. }
  split; [exact H | by apply lines_of_clean].
Qed.

(** X2.  The list of URLs that the scan-results step shows and copies,
    pasted into the video box of the matching step, is read back as the
    URLs of the scanned videos, in order, when these are clean lines. *)
Theorem videoUrls_lines videos :
  Forall cleanLine (map webVideoUrl videos) →
  lines (videoUrls videos) = map webVideoUrl videos.
Proof. apply lines_of_clean. Qed.

(** The keys and values of the input map are lines of the two boxes. *)
Lemma userInputMap_lines (vl ml : list jsstring) (k a : jsstring) :
  length vl = length ml →
  userInputMap vl ml !! k = Some a → k ∈ vl ∧ a ∈ ml.
Proof.
  intros Hlen H. apply userInputMap_lookup in H as (i & Hk & Ha & _); [| done].
  split; by eapply list_elem_of_lookup_2.
Qed.

(** What [handleMatch] leaves in the mapping, in every case. *)
Lemma handleMatch_lookup videos st (k a : jsstring) :
  mp3UrlMap (handleMatch videos st) !! k = Some a ↔
  lines (mp3UrlsInput st) ≠ [] ∧
  length (lines (mp3UrlsInput st)) = length (lines (videoUrlsInput st)) ∧
  k ∈ knownSet videos ∧
  userInputMap (lines (videoUrlsInput st)) (lines (mp3UrlsInput st)) !! k
  = Some a.
Proof.
  destruct (decide (lines (mp3UrlsInput st) = [])) as [Ha | Ha].
  { rewrite (handleMatch_empty videos st) by by left.
    cbn. rewrite lookup_empty. split; [done | by intros [? _]]. }
  destruct (decide (lines (videoUrlsInput st) = [])) as [Hv | Hv].
  { rewrite (handleMatch_empty videos st) by by right.
    cbn. rewrite lookup_empty. split; [done |].
    intros (_ & Hlen & _). rewrite Hv in Hlen.
    by destruct (lines (mp3UrlsInput st)). }
  destruct (decide (length (lines (mp3UrlsInput st))
                    = length (lines (videoUrlsInput st)))) as [Hlen | Hlen].
  - rewrite (handleMatch_matched videos st Ha Hv Hlen). cbn zeta.
    cbn [mp3UrlMap setResult]. rewrite matchVideos_lookup. tauto.
  - rewrite (handleMatch_mismatch videos st Ha Hv Hlen).
    cbn. rewrite lookup_empty. split; [done | tauto].
Qed.

Lemma handleMatch_lookup_clean videos st (k a : jsstring) :
  mp3UrlMap (handleMatch videos st) !! k = Some a →
  k ∈ knownSet videos ∧
  k ∈ lines (videoUrlsInput st) ∧ a ∈ lines (mp3UrlsInput st) ∧
  cleanLine k ∧ cleanLine a.
Proof.
  intros (_ & Hlen & Hk & Hin)%handleMatch_lookup.
  apply userInputMap_lines in Hin as [Hkl Hal]; [| done].
  split; [done |]. split; [done |]. split; [done |].
  split; by eapply lines_elem_clean.
Qed.

(** X3.  Whatever the inputs, the mapping that [handleMatch] leaves
    sends URLs of scanned videos to audio URLs, and both are clean
    lines of the boxes; in particular a scanned record whose URL is the
    empty text is never given an audio URL. *)
Theorem handleMatch_mapping_clean videos st (k a : jsstring) :
  mp3UrlMap (handleMatch videos st) !! k = Some a →
  k ∈ knownSet videos ∧
  k ∈ lines (videoUrlsInput st) ∧ a ∈ lines (mp3UrlsInput st) ∧
  cleanLine k ∧ cleanLine a ∧
  mp3UrlMap (handleMatch videos st) !! [] = None.
Proof.
  intros H. apply handleMatch_lookup_clean in H as (? & ? & ? & ? & ?).
  do 5 (split; [done |]).
  destruct (mp3UrlMap (handleMatch videos st) !! []) as [b |] eqn:E; [| done].
  apply handleMatch_lookup_clean in E as (_ & _ & _ & (Hne & _) & _). done.
Qed.





Lemma videoUrls_lines_witness :
  lines (videoUrls [Examples.v1; Examples.v2]) = [lit "v1"; lit "v2"].
Proof.
  rewrite videoUrls_lines; [by vm_compute |].
  repeat (apply Forall_cons; split;
          [repeat split; try done;
           [by apply (bool_decide_unpack _); vm_compute
           | by intros c [= <-]; vm_compute
           | by intros c [= <-]; vm_compute] |]).
  done.
Defined.

Lemma handleMatch_mapping_clean_witness :
  let st := {| mp3UrlsInput := lit "a.mp3" ++ [LF] ++ lit " b.mp3 ";
               videoUrlsInput := lit "v1" ++ [LF] ++ lit "other";
               matchStatus := []; matchedCount := O; mp3UrlMap := ∅ |} in
  mp3UrlMap (handleMatch [Examples.v1; Examples.v2] st) !! lit "v1"
  = Some (lit "a.mp3") ∧
  cleanLine (lit "a.mp3").
Proof.
  intros st.
  assert (H : mp3UrlMap (handleMatch [Examples.v1; Examples.v2] st)
              !! lit "v1" = Some (lit "a.mp3")) by by vm_compute.
  split; [exact H |].
  by destruct (handleMatch_mapping_clean _ _ _ _ H) as (_ & _ & _ & _ & ? & _).
Defined.

End MatchMore.
(** ** From the matching step to the work-set *)

Section MatchToPipeline.
Import MatchStep.

Implicit Types (videos : list TikTokVideo) (st : MatchStep.State).
Implicit Types (cache : TranscriptCache).




End MatchToPipeline.
(** ** More on the audio fetcher and the transcription client *)

Section ServiceMore.
Import AudioFetcher GeminiService.

(** What a successful fetch hands over. *)
Lemma readerPromise_resolved (b : BlobEnv) (base64 mimeType : jsstring) :
  readerPromise b = Resolved (base64, mimeType) →
  mimeType = blobType b ∧ base64 ≠ [] ∧ (COMMA ∉ base64) ∧
  ∃ dataUrl, reader b = ReaderLoads dataUrl ∧
             split COMMA dataUrl !! 1%nat = Some base64.
Proof.
  unfold readerPromise. destruct (reader b) as [dataUrl |]; [| done].
  destruct (split COMMA dataUrl !! 1%nat) as [piece |] eqn:E; [| done].
  destruct (truthy piece) eqn:Ht; [| done]. intros [= <- <-].
  split; [done |]. split; [by destruct piece |]. split; [| by eauto].
  eapply split_pieces. by eapply list_elem_of_lookup_2.
Qed.

Lemma readerPromise_rejected (b : BlobEnv) (e : Thrown) :
  readerPromise b = Rejected e →
  e = ErrorObj (lit "Could not convert file to base64.") ∨
  (e = NonError ∧ reader b = ReaderFails).
Proof.
  unfold readerPromise. destruct (reader b) as [dataUrl |].
  - destruct (split COMMA dataUrl !! 1%nat) as [piece |].
    + destruct (truthy piece); [done |]. intros [= <-]. by left.
    + intros [= <-]. by left.
  - intros [= <-]. by right.
Qed.

Lemma tryBody_inr (env : FetchEnv) (b : BlobEnv) :
  tryBody env = inr b ↔
  ∃ response, env = Resolved response ∧ ok response = true ∧
              blob response = Resolved b ∧
              startsWith (lit "audio/") (blobType b) = true.
Proof.
  unfold tryBody. split.
  - destruct env as [response | e]; [| done].
    destruct (ok response) eqn:Hok; [| done]. cbn [negb].
    destruct (blob response) as [b' | e] eqn:Hb; [| done].
    destruct (startsWith (lit "audio/") (blobType b')) eqn:Hs; [| done].
    cbn [negb]. intros [= ->]. by exists response.
  - intros (response & -> & -> & -> & ->). done.
Qed.

Lemma getBase64FromUrl_resolved (env : FetchEnv)
    (base64 mimeType : jsstring) :
  (getBase64FromUrl env).1 = Resolved (base64, mimeType) →
  startsWith (lit "audio/") mimeType = true ∧ base64 ≠ [] ∧
  (COMMA ∉ base64) ∧ (getBase64FromUrl env).2 = [] ∧
  failureCondition env = None.
Proof.
  unfold getBase64FromUrl. destruct (tryBody env) as [e | b] eqn:Ht; [done |].
  cbn [fst snd]. intros Hr.
  pose proof Ht as (response & -> & Hok & Hb & Hs)%tryBody_inr.
  destruct (readerPromise_resolved b base64 mimeType Hr)
    as (-> & Hne & Hc & _).
  do 4 (split; [done |]).
  unfold failureCondition. by rewrite Hok, Hb, Hs, Hr.
Qed.

(** X7.  A fetch that succeeds hands over a payload that is not empty
    and holds no comma, with a content type that starts with [audio/],
    and writes nothing to the console.  A fetch that fails either throws
    inside the [try] block, and then the caller gets the fixed message
    and the console exactly one entry, or fails in the reader, and then
    the caller gets the reader's own error (the conversion message, or
    the reader's event, which is not an [Error]) and the console
    nothing. *)
Theorem getBase64FromUrl_outcomes (env : FetchEnv) :
  match (getBase64FromUrl env).1 with
  | Resolved (base64, mimeType) =>
    startsWith (lit "audio/") mimeType = true ∧ base64 ≠ [] ∧
    (COMMA ∉ base64) ∧ (getBase64FromUrl env).2 = [] ∧
    failureCondition env = None
  | Rejected e =>
    (e = ErrorObj corsMessage ∧ length (getBase64FromUrl env).2 = 1%nat ∧
     ∃ cond, failureCondition env = Some cond ∧ cond ≠ EncodingFailure) ∨
    ((e = ErrorObj (lit "Could not convert file to base64.") ∨ e = NonError)
     ∧ (getBase64FromUrl env).2 = [] ∧
     failureCondition env = Some EncodingFailure)
  end.
Proof.
  destruct (getBase64FromUrl env).1 as [[base64 mimeType] | e] eqn:Hr.
  { by apply getBase64FromUrl_resolved. }
  unfold getBase64FromUrl in *. destruct (tryBody env) as [e' | b] eqn:Ht.
  - left. cbn in Hr. injection Hr as <-. split; [done |]. split; [done |].
    unfold tryBody, failureCondition in *.
    destruct env as [response | e0]; [| by eexists].
    destruct (negb (ok response)); [by eexists |].
    destruct (blob response) as [b | e0]; [| by eexists].
    destruct (negb (startsWith (lit "audio/") (blobType b)));
      [by eexists | done].
  - right. cbn [fst snd] in *.
    pose proof Ht as (response & -> & Hok & Hb & Hs)%tryBody_inr.
    split.
    + destruct (readerPromise_rejected b e Hr) as [-> | [-> _]]; auto.
    + split; [done |]. unfold failureCondition.
      by rewrite Hok, Hb, Hs, Hr.
Qed.

Lemma transcribeAudioWithGemini_resolved (base64 mimeType apiKey : jsstring)
    (env : GenerateEnv) (t : jsstring) :
  transcribeAudioWithGemini base64 mimeType apiKey env = Resolved t ↔
  apiKey ≠ [] ∧ env = Resolved (Some t) ∧ t ≠ [].
Proof.
  unfold transcribeAudioWithGemini. split.
  - destruct apiKey as [| c apiKey]; [done |]. cbn [truthy negb].
    destruct env as [[t' |] | [msg |]]; try done.
    destruct t' as [| c' t']; [done |]. cbn [truthy]. by intros [= <-].
  - intros (Hk & -> & Ht). destruct apiKey; [done |]. by destruct t.
Qed.

Lemma transcribeAudioWithGemini_rejected (base64 mimeType apiKey : jsstring)
    (env : GenerateEnv) (e : Thrown) :
  transcribeAudioWithGemini base64 mimeType apiKey env = Rejected e →
  ∃ message, e = ErrorObj message ∧
    (apiKey = [] → message = lit "Google AI API Key is not provided.").
Proof.
  unfold transcribeAudioWithGemini.
  destruct apiKey as [| c apiKey]; cbn [truthy negb].
  { intros [= <-]. eexists. split; reflexivity. }
  assert (Hkey : ∀ message : jsstring,
    c :: apiKey = [] → message = lit "Google AI API Key is not provided.").
  { intros message H. discriminate H. }
  destruct env as [[t |] | [msg |]].
  - destruct (truthy t); [intros H; discriminate H |].
    intros [= <-]. eexists. split; [reflexivity | apply Hkey].
  - intros [= <-]. eexists. split; [reflexivity | apply Hkey].
  - intros [= <-]. eexists. split; [reflexivity | apply Hkey].
  - intros [= <-]. eexists. split; [reflexivity | apply Hkey].
Qed.

(** X8.  The transcription client resolves only with the text of the
    response, only when that text is not empty and only when a key was
    given; whatever goes wrong, it rejects with an [Error] object, and
    without a key with the message that says so, whatever the service
    would have answered. *)
Theorem transcribeAudioWithGemini_outcomes
    (base64 mimeType apiKey : jsstring) (env : GenerateEnv) :
  match transcribeAudioWithGemini base64 mimeType apiKey env with
  | Resolved t => apiKey ≠ [] ∧ env = Resolved (Some t) ∧ t ≠ []
  | Rejected e =>
    ∃ message, e = ErrorObj message ∧
      (apiKey = [] → message = lit "Google AI API Key is not provided.")
  end.
Proof.
  destruct (transcribeAudioWithGemini base64 mimeType apiKey env)
    as [t | e] eqn:E.
  - by apply transcribeAudioWithGemini_resolved in E.
  - by apply transcribeAudioWithGemini_rejected in E.
Qed.

End ServiceMore.
(** ** More on the pipeline controller *)

Section PipelineMore.
Import ResultsStep LocalStorageHook ResultsView.

Variables (P : gmap jsstring jsstring) (key : jsstring) (env : Env).

Implicit Types (st : ResultsStep.State) (tr ext : list Event).
Implicit Types (v : TikTokVideo) (items : list TikTokVideo).
Implicit Types (c i len : nat).

Lemma transcribes_app tr ext :
  transcribes (tr ++ ext) = transcribes tr ++ transcribes ext.
Proof. apply omap_app. Qed.

Lemma transcribes_calls tr : transcribes (calls tr) = transcribes tr.
Proof.
  induction tr as [| e tr IH]; [done |].
  destruct e; simpl; by rewrite ?IH.
Qed.

Lemma transcribes_callsOf (e : ItemEnv) v :
  transcribes (callsOf P key e v)
  = match fetched e with
    | Resolved (base64, mimeType) => [(base64, mimeType, key)]
    | Rejected _ => []
    end.
Proof. unfold callsOf. by destruct (fetched e) as [[b m] | err]. Qed.

(** *** One iteration: the live status and the status line *)

Lemma loopBody_states len i v c st :
  transcriptStates (loopBody P key env len i v c st).2
  = <[webVideoUrl v := finalEntry key (env i)]> (transcriptStates st).
Proof.
  unfold loopBody, tryItem, finalEntry, outcome, fetched.
  destruct (AudioFetcher.getBase64FromUrl (audio (env i))).1
    as [[b m] | err].
  - destruct (GeminiService.transcribeAudioWithGemini b m key
                (gemini (env i))) as [t | err];
      [| destruct err];
      destruct (duringFetch (env i)), (duringTranscribe (env i)),
        (i <? len - 1)%nat, (duringDelay (env i));
      cbn [transcriptStates setTranscriptState setTranscriptCache setStatus
           log arrive handleStopProcessing cleanup setStopRequest catchError
           stopRequest fst snd negb andb];
      try destruct (stopRequest st);
      cbn [transcriptStates setTranscriptState setTranscriptCache setStatus
           log arrive handleStopProcessing cleanup setStopRequest catchError
           stopRequest fst snd negb andb];
      by rewrite !insert_insert_eq.
  - destruct err;
      destruct (duringFetch (env i)),
        (i <? len - 1)%nat, (duringDelay (env i));
      cbn [transcriptStates setTranscriptState setTranscriptCache setStatus
           log arrive handleStopProcessing cleanup setStopRequest catchError
           stopRequest fst snd negb andb];
      try destruct (stopRequest st);
      cbn [transcriptStates setTranscriptState setTranscriptCache setStatus
           log arrive handleStopProcessing cleanup setStopRequest catchError
           stopRequest fst snd negb andb];
      by rewrite !insert_insert_eq.
Qed.



(** *** The loop *)

(** Whatever arrives: the attempts are those on the first items of the
    list, the transcription calls carry what the fetches of these items
    gave, the live statuses are those the attempts leave, and a loop that
    ends with the signal off went through the whole list. *)
Lemma loop_more len items i c st :
  ∃ ext (m : nat),
    trace (loop P key env len items i c st).2 = trace st ++ ext ∧
    (m ≤ length items)%nat ∧
    fetches ext = map (fun v => P !! webVideoUrl v) (take m items) ∧
    successes ext = succeeded key env i (take m items) ∧
    transcribes ext = audioSent key env i (take m items) ∧
    transcriptStates (loop P key env len items i c st).2
    = settle key env i (take m items) (transcriptStates st) ∧
    (stopRequest (loop P key env len items i c st).2 = false →
     m = length items).
Proof.
  revert i c st. induction items as [| v items IH]; intros i c st.
  { exists [], O. cbn. by rewrite app_nil_r. }
  destruct (stopRequest st) eqn:Hs.
  { rewrite (loop_stop _ _ _ _ _ _ _ _ _ Hs).
    exists [SetStatus (msgStopped c)], O.
    cbn -[msgStopped]. rewrite Hs. repeat split; [lia | done]. }
  rewrite (loop_go _ _ _ _ _ _ _ _ _ Hs).
  destruct (loopBody_spec P key env len i v c st)
    as (ext1 & Htr1 & Hcalls1 & Hsucc1 & _).
  pose proof (loopBody_states len i v c st) as Hst1.
  cbn zeta in *.
  set (c1 := (loopBody P key env len i v c st).1) in *.
  set (st1 := (loopBody P key env len i v c st).2) in *.
  destruct (IH (S i) c1 st1)
    as (ext2 & m & Htr2 & Hm & Hf2 & Hsucc2 & Ht2 & Hst2 & Hoff2).
  exists (ext1 ++ ext2), (S m).
  split; [| split; [| split; [| split; [| split; [| split]]]]].
  - by rewrite Htr2, Htr1, app_assoc.
  - cbn [length]. lia.
  - rewrite fetches_app, <- (fetches_calls ext1), Hcalls1, fetches_app.
    rewrite fetches_callsOf, Hf2. cbn [take map].
    by destruct (_ && _).
  - by rewrite successes_app, Hsucc1, Hsucc2.
  - rewrite transcribes_app, <- (transcribes_calls ext1), Hcalls1.
    rewrite transcribes_app, transcribes_callsOf, Ht2. cbn [take audioSent].
    destruct (_ && _); cbn [transcribes omap isTranscribe];
      by rewrite ?app_nil_r.
  - rewrite Hst2, Hst1. done.
  - intros Hoff. cbn [length]. f_equal. by apply Hoff2.
Qed.

(** *** A whole run *)

Lemma runTranscription_more (videos : list TikTokVideo)
    (cache : TranscriptCache) st :
  let items := videosToTranscribe videos P cache in
  let st' := runTranscription videos P cache key env st in
  ∃ ext (m : nat),
    trace st' = trace st ++ ext ∧
    (m ≤ length items)%nat ∧
    fetches ext = map (fun v => P !! webVideoUrl v) (take m items) ∧
    successes ext = succeeded key env O (take m items) ∧
    cacheWrites ext = successes ext ∧
    transcribes ext = audioSent key env O (take m items) ∧
    transcriptStates st'
    = settle key env O (take m items) (transcriptStates st) ∧
    transcriptCache st' = applyWrites (cacheWrites ext) (transcriptCache st) ∧
    (stopRequest st' = false → m = length items).
Proof.
  intros items st'. subst st'.
  destruct (runTranscription_general P key env videos cache st)
    as (ext & m0 & Htr & _ & _ & _ & Hw & _ & Hcache & _).
  cbn zeta in Htr, Hw, Hcache.
  revert Htr Hcache. rewrite runTranscription_unfold. fold items. cbn zeta.
  intros Htr Hcache.
  destruct (loop_more (length items) items O O (started st))
    as (ext' & m & Htr' & Hm & Hf & Hsucc & Ht & Hst & Hoff).
  set (r := loop P key env (length items) items 0 0 (started st)) in *.
  set (tail := if negb (stopRequest r.2)
               then [SetStatus (msgCompleted r.1); SetIsProcessing false]
               else [SetIsProcessing false]).
  assert (Hext : ext = SetIsProcessing true :: ext' ++ tail).
  { apply (app_inv_head (trace st)). rewrite <- Htr. unfold tail.
    destruct (negb _);
      cbn [trace setIsProcessing setStatus]; rewrite Htr';
      cbn [started trace setIsProcessing setStopRequest];
      by rewrite <- !app_assoc. }
  assert (Htail : successes tail = [] ∧ fetches tail = [] ∧
                  transcribes tail = []).
  { unfold tail. by destruct (negb _). }
  destruct Htail as (Hts & Htf & Htt).
  assert (Hf' : fetches ext = fetches ext').
  { rewrite Hext.
    change (fetches (SetIsProcessing true :: ext' ++ tail))
      with (fetches (ext' ++ tail)).
    by rewrite fetches_app, Htf, app_nil_r. }
  assert (Hs' : successes ext = successes ext').
  { rewrite Hext.
    change (successes (SetIsProcessing true :: ext' ++ tail))
      with (successes (ext' ++ tail)).
    by rewrite successes_app, Hts, app_nil_r. }
  assert (Ht' : transcribes ext = transcribes ext').
  { rewrite Hext.
    change (transcribes (SetIsProcessing true :: ext' ++ tail))
      with (transcribes (ext' ++ tail)).
    by rewrite transcribes_app, Htt, app_nil_r. }
  exists ext, m. rewrite Hf', Hs', Ht'.
  split; [done |]. split; [done |]. split; [done |]. split; [done |].
  split; [by rewrite <- Hs' |]. split; [done |].
  split; [| split].
  - by destruct (negb _); cbn [transcriptStates setIsProcessing setStatus].
  - exact Hcache.
  - intros Hoff'. apply Hoff.
    destruct (stopRequest r.2) eqn:E; [| done].
    cbn [negb setIsProcessing stopRequest] in Hoff'. congruence.
Qed.

End PipelineMore.
(** ** Runs, seen from the table, the cache and the next run *)

Section RunProofs.
Import ResultsStep LocalStorageHook ResultsView.

Variables (P : gmap jsstring jsstring) (key : jsstring) (env : Env).
Variable number_to_string : number → jsstring.

Implicit Types (st : ResultsStep.State) (tr ext : list Event).
Implicit Types (v : TikTokVideo) (items videos : list TikTokVideo).
Implicit Types (cache : TranscriptCache) (states : TranscriptState).
Implicit Types (c i j len : nat) (u t : jsstring).

Lemma outcome_resolved (e : ItemEnv) t :
  outcome key e = Resolved t → t ≠ [] ∧ key ≠ [].
Proof.
  unfold outcome. destruct (fetched e) as [[b m] | err]; [| done].
  intros H%transcribeAudioWithGemini_resolved. tauto.
Qed.


Lemma finalEntry_text (e : ItemEnv) t :
  outcome key e = Resolved t → stateText (finalEntry key e) = t.
Proof. unfold finalEntry. by intros ->. Qed.

Lemma succeeded_nonempty i items u t :
  (u, t) ∈ succeeded key env i items → t ≠ [].
Proof.
  intros (j & v & _ & _ & Ho)%succeeded_elem_of.
  by apply outcome_resolved in Ho as [? _].
Qed.


(** *** The live statuses that attempts leave *)




(** *** The cache after the writes of a run *)

Lemma fold_set_lookup_cases (ws : list (jsstring * jsstring))
    (m : gmap jsstring jsstring) u t :
  fold_left (fun m p => <[p.1 := p.2]> m) ws m !! u = Some t →
  m !! u = Some t ∨ (u, t) ∈ ws.
Proof.
  revert m. induction ws as [| [u' t'] ws IH]; intros m H; [by left |].
  cbn in H. apply IH in H as [H | H].
  - destruct (decide (u' = u)) as [-> | Hne].
    + rewrite lookup_insert_eq in H. injection H as ->. right. left.
    + rewrite lookup_insert_ne in H by done. by left.
  - right. by right.
Qed.



(** The invariant of the cache hook that the runs keep: no transcript,
    in the state or in the stored item, is the empty text. *)
Lemma applyWrites_nonEmpty (ws : list (jsstring * jsstring))
    (h : Hook TranscriptCache) :
  (∀ k t, (k, t) ∈ ws → t ≠ []) → nonEmptyCache h →
  nonEmptyCache (applyWrites ws h).
Proof.
  revert h. induction ws as [| [u' t'] ws IH]; intros h Hws Hh; [done |].
  cbn [applyWrites fold_left]. apply IH.
  { intros k t Hin. apply (Hws k). by right. }
  assert (Hnew : ∀ k t,
    (<[u' := t']> (storedValue h) : TranscriptCache) !! k = Some t → t ≠ []).
  { intros k t. destruct (decide (u' = k)) as [-> | Hne].
    - rewrite lookup_insert_eq. intros [= <-]. apply (Hws k). left.
    - rewrite lookup_insert_ne by done. apply (proj1 Hh). }
  split; [exact Hnew |]. cbn. intros stored k t [= <-]. apply Hnew.
Qed.

(** X10.  The transcripts that a run writes to the cache are never
    empty.  So a cache hook without an empty transcript, in its state
    and in the stored item, is still one after a run, whatever arrives
    during the run and whatever cache the run captured. *)
Theorem runTranscription_keeps_nonEmptyCache videos cache st :
  nonEmptyCache (transcriptCache st) →
  nonEmptyCache (transcriptCache
                   (runTranscription videos P cache key env st)).
Proof.
  intros Hh.
  destruct (runTranscription_more P key env videos cache st)
    as (ext & m & _ & _ & _ & Hsucc & Hw & _ & _ & Hcache & _).
  cbn zeta in *. rewrite Hcache. apply applyWrites_nonEmpty; [| done].
  intros k t. rewrite Hw, Hsucc. apply succeeded_nonempty.
Qed.










End RunProofs.
(** *** More concrete runs *)

Section RunInstances.
Import ResultsStep LocalStorageHook ResultsView Examples.

Lemma noEntry_nonEmpty : nonEmptyCache (transcriptCache (initial noEntry)).
Proof.
  split.
  - intros k t. cbn. by rewrite lookup_empty.
  - intros stored k t H. discriminate H.
Qed.



(** A first run in a browser without a stored item. *)
Lemma runTranscription_keeps_nonEmptyCache_witness :
  nonEmptyCache (transcriptCache (initial noEntry)) ∧
  nonEmptyCache (transcriptCache
                   (runTranscription [v1; v2] audioMap ∅ apiKey firstOk
                                     (initial noEntry))).
Proof.
  split; [exact noEntry_nonEmpty |].
  exact (runTranscription_keeps_nonEmptyCache audioMap apiKey firstOk
           [v1; v2] ∅ (initial noEntry) noEntry_nonEmpty).
Defined.






End RunInstances.
(** ** Reading back what the export writes *)

Section CsvReaderProofs.
Import CsvHelper CsvReader.

Variable number_to_string : number → jsstring.

Lemma readPlain_plainText (s rest : jsstring) :
  plainText s → fieldBoundary rest → readPlain (s ++ rest) = Some (s, rest).
Proof.
  intros Hs Hrest. induction s as [| c s IH].
  - destruct rest as [| c rest]; [done |]. cbn in *. by rewrite Hrest.
  - destruct (Hs c) as [He Hq]; [left |].
    cbn [app readPlain]. rewrite He, Hq, IH; [done |].
    intros c' Hc'. apply Hs. by right.
Qed.

Lemma readCsvField_plainText (s rest : jsstring) :
  plainText s → fieldBoundary rest →
  readCsvField (s ++ rest) = Some (s, rest).
Proof.
  intros Hs Hrest. unfold readCsvField.
  destruct (s ++ rest) as [| c r] eqn:E.
  { by apply app_eq_nil in E as [-> ->]. }
  assert (Hc : (c =? DQUOTE) = false).
  { destruct s as [| c' s].
    - cbn in E. subst rest. by eapply fieldBoundary_not_quote.
    - injection E as -> _. apply Hs. left. }
  rewrite Hc, <- E. by apply readPlain_plainText.
Qed.

Lemma plainText_not_special (s : jsstring) :
  existsb isCsvSpecial s = false → CR ∉ s → plainText s.
Proof.
  intros Hs Hcr c Hc.
  assert (Hnot : isCsvSpecial c = false).
  { destruct (isCsvSpecial c) eqn:E; [| done].
    rewrite <- Hs. symmetry. apply existsb_exists. exists c.
    split; [by apply list_elem_of_In | done]. }
  unfold isCsvSpecial in Hnot. apply orb_false_iff in Hnot as [Hnot Hlf].
  apply orb_false_iff in Hnot as [Hq Hcomma].
  split; [| done]. unfold isFieldEnd. rewrite Hcomma, Hlf. cbn.
  apply N.eqb_neq. intros ->. done.
Qed.

Lemma readCsvField_sanitize (s rest : jsstring) :
  readable s → fieldBoundary rest →
  readCsvField (sanitizeCsvField (Some s) ++ rest) = Some (s, rest).
Proof.
  intros Hs Hrest. destruct (existsb isCsvSpecial s) eqn:E.
  - rewrite (sanitizeCsvField_quoted _ E). simpl. rewrite <- app_assoc.
    by apply readQuoted_doubleQuotes.
  - rewrite (sanitizeCsvField_plain _ E).
    apply readCsvField_plainText; [| done].
    apply plainText_not_special; [done |]. intros Hcr.
    apply Hs in Hcr. congruence.
Qed.

(** X17.  Whatever [sanitizeCsvField] emits for a value is read back as
    that value by a CSV reader, quoted or not, when the value has no
    carriage return or has one of the characters that make the function
    quote; what it emits for [null] is read back as the empty text.  The
    pattern of the function does not hold the carriage return: a value
    with a carriage return and none of the three characters is emitted
    as it is, and the reader stops at the carriage return. *)
Theorem sanitizeCsvField_read_back (rest : jsstring) :
  fieldBoundary rest →
  (∀ s, readable s →
        readCsvField (sanitizeCsvField (Some s) ++ rest) = Some (s, rest)) ∧
  readCsvField (sanitizeCsvField None ++ rest) = Some ([], rest) ∧
  (∀ s s', plainText s → existsb isCsvSpecial s' = false →
           readCsvField (sanitizeCsvField (Some (s ++ CR :: s')) ++ rest)
           = Some (s, CR :: s' ++ rest)).
Proof.
  intros Hrest. split; [| split].
  - intros s Hs. by apply readCsvField_sanitize.
  - cbn. destruct rest as [| c rest]; [done |].
    by rewrite (fieldBoundary_not_quote _ _ Hrest).
  - intros s s' Hs Hs'.
    assert (Hplain : existsb isCsvSpecial (s ++ CR :: s') = false).
    { rewrite existsb_app. cbn. rewrite Hs', orb_false_r.
      apply not_true_is_false. intros (c & Hin & Hc)%existsb_exists.
      apply list_elem_of_In, Hs in Hin as [He Hq].
      unfold isCsvSpecial in Hc. unfold isFieldEnd in He.
      rewrite Hq in Hc. cbn in Hc.
      apply orb_false_iff in He as [He _]. congruence. }
    rewrite (sanitizeCsvField_plain _ Hplain), <- app_assoc.
    cbn [app]. by apply readCsvField_plainText.
Qed.

Lemma readFields_join (vals ems : list jsstring) (rest : jsstring) :
  Forall2 (fun val em => ∀ r, fieldBoundary r →
                              readCsvField (em ++ r) = Some (val, r))
          vals ems →
  ems ≠ [] → fieldBoundary rest →
  readFields (length ems - 1) (join [COMMA] ems ++ rest) = Some (vals, rest).
Proof.
  intros H. induction H as [| val em vals ems Hem Hrec IH]; [done |].
  intros _ Hrest. destruct ems as [| em' ems].
  - apply Forall2_nil_inv_r in Hrec. subst vals. cbn [join length Nat.sub].
    cbn [readFields]. by rewrite (Hem rest Hrest).
  - cbn [length Nat.sub] in *. rewrite Nat.sub_0_r in *.
    change (join [COMMA] (em :: em' :: ems))
      with (em ++ [COMMA] ++ join [COMMA] (em' :: ems)).
    rewrite <- !app_assoc. cbn [readFields].
    rewrite Hem by (cbn; done). cbn [app]. rewrite N.eqb_refl.
    fold readFields. rewrite IH by done. done.
Qed.

Lemma bool_to_string_plainText (b : bool) : plainText (bool_to_string b).
Proof.
  intros c Hc. apply (bool_decide_unpack _) .
  revert c Hc. apply Forall_forall.
  destruct b; apply (bool_decide_unpack _); by vm_compute.
Qed.

(** X18.  A row of the export is read back, field by field, as the
    values of its video, in the order of the headers and with nothing
    left over, when the numbers print as plain text and every string of
    the video is readable: the commas, quotes and newlines inside the
    values do not break the row. *)
Theorem rowFields_read_back (transcripts : TranscriptCache)
    (video : TikTokVideo) (rest : jsstring) :
  (∀ n, plainText (number_to_string n)) →
  Forall readable (stringValues transcripts video) →
  fieldBoundary rest →
  readFields 17 (join [COMMA] (rowFields number_to_string transcripts video)
                 ++ rest)
  = Some (rowValues number_to_string transcripts video, rest).
Proof.
  intros Hnum Hstr Hrest.
  unfold stringValues in Hstr.
  repeat (apply Forall_cons in Hstr as [? Hstr]).
  apply (readFields_join (rowValues number_to_string transcripts video)
                         (rowFields number_to_string transcripts video));
    [| done | done].
  unfold rowValues, rowFields. cbn zeta.
  repeat (apply Forall2_cons; split;
          [intros r Hr;
           first [ by apply readCsvField_sanitize
                 | by apply readCsvField_plainText
                 | apply readCsvField_plainText;
                   [apply bool_to_string_plainText | done] ] |]).
  apply Forall2_nil_2.
Qed.

End CsvReaderProofs.

Section CsvReaderInstances.
Import CsvHelper CsvReader Examples.

Lemma printNumber_plainText (n : number) : plainText (printNumber n).
Proof.
  intros c Hc. apply (bool_decide_unpack _).
  revert c Hc. apply Forall_forall.
  destruct n; apply (bool_decide_unpack _); by vm_compute.
Qed.

(** A value with a comma and a quote, before a comma. *)
Lemma sanitizeCsvField_read_back_witness :
  readCsvField (sanitizeCsvField (Some [97; 44; 34; 98]) ++ [44; 120])
  = Some ([97; 44; 34; 98], [44; 120]) ∧
  readCsvField (sanitizeCsvField (Some [97; 13; 98]) ++ [44; 120])
  = Some ([97], [13; 98; 44; 120]).
Proof.
  assert (Hrest : fieldBoundary [44; 120]) by done.
  destruct (sanitizeCsvField_read_back [44; 120] Hrest) as (Hr & _ & Hcr).
  split.
  - apply Hr. intros _. by vm_compute.
  - apply (Hcr [97] [98]); [| done].
    intros c ->%list_elem_of_singleton. by vm_compute.
Defined.

(** The row of a video whose transcript holds a comma, a quote and a
    newline. *)
Lemma rowFields_read_back_witness :
  readFields 17
    (join [COMMA]
       (rowFields printNumber {[ lit "v1" := [97; 44; 34; 10; 98] ]} v1)
     ++ [LF])
  = Some (rowValues printNumber {[ lit "v1" := [97; 44; 34; 10; 98] ]} v1,
          [LF]).
Proof.
  apply (rowFields_read_back printNumber); [| | done].
  - exact printNumber_plainText.
  - apply Forall_forall. intros s Hs Hcr. exfalso. revert s Hs Hcr.
    apply (Forall_forall (fun s : jsstring => CR ∉ s)).
    apply (bool_decide_unpack _). by vm_compute.
Defined.

End CsvReaderInstances.
(** ** More on the mapping of the raw items *)

Section ApifyMore.
Import ApifyService ApifyFallback.

Variable number_to_string : number → jsstring.

Implicit Types (item : Json) (r : Random) (items : list Json).

Lemma mapId_needsFallback item r :
  item ≠ JNull →
  (mapId number_to_string item r).2
  = if needsFallback item
    then {| draw := draw r; drawn := S (drawn r) |} else r.
Proof.
  intros Hnull. unfold mapId, needsFallback.
  destruct item as [| | | | | members]; try done.
  cbn [getProp].
  destruct (member (lit "id") members) as [[] |];
    destruct (member (lit "webVideoUrl") members) as [[] |]; done.
Qed.

Lemma mapItem_needsFallback item r :
  item ≠ JNull →
  (mapItem number_to_string item r).2
  = if needsFallback item
    then {| draw := draw r; drawn := S (drawn r) |} else r.
Proof.
  intros Hnull. rewrite <- (mapId_needsFallback item r Hnull).
  unfold mapItem. by destruct (mapId number_to_string item r) as [[err | i] r'].
Qed.

Lemma mapItem_null r :
  mapItem number_to_string JNull r
  = (inl (ErrorObj (lit "Cannot read properties of null (reading '"
                    ++ lit "id" ++ lit "')")), r).
Proof. reflexivity. Qed.

(** X19.  The mapping of the raw items fails exactly when one of them
    is [null], always with the error of reading [id] of [null]; when it
    succeeds it gives one record per item and has drawn one random
    number for each item that has neither an [id] nor a
    [webVideoUrl], and no other. *)
Theorem mapItems_outcome items r :
  match (mapItems number_to_string items r).1 with
  | inl err =>
    JNull ∈ items ∧
    err = ErrorObj (lit "Cannot read properties of null (reading '"
                    ++ lit "id" ++ lit "')")
  | inr vs =>
    (JNull ∉ items) ∧ length vs = length items ∧
    draw (mapItems number_to_string items r).2 = draw r ∧
    drawn (mapItems number_to_string items r).2
    = (drawn r + length (List.filter needsFallback items))%nat
  end.
Proof.
  revert r. induction items as [| item items IH]; intros r.
  { cbn. split; [apply not_elem_of_nil | ]. split; [done |].
    split; [done | lia]. }
  cbn [mapItems].
  assert (Hcase : item = JNull ∨ item ≠ JNull)
    by (destruct item; auto; by right).
  destruct Hcase as [-> | Hnull].
  { rewrite mapItem_null. cbn [fst]. split; [left | done]. }
  destruct (mapItem_not_null number_to_string item r Hnull) as [v Hv].
  pose proof (mapItem_needsFallback item r Hnull) as Hr.
  destruct (mapItem number_to_string item r) as [res r1].
  cbn [fst snd] in Hv, Hr. subst res.
  specialize (IH r1).
  destruct (mapItems number_to_string items r1) as [[err | vs] r2];
    cbn [fst snd] in *.
  - destruct IH as [Hin ->]. split; [by right | done].
  - destruct IH as (Hnot & Hlen & Hdraw & Hdrawn).
    split; [| split; [| split]].
    + apply not_elem_of_cons. split; [congruence | done].
    + cbn [length]. by rewrite Hlen.
    + rewrite Hdraw, Hr. by destruct (needsFallback item).
    + rewrite Hdrawn, Hr. cbn [List.filter].
      destruct (needsFallback item); cbn [drawn length]; lia.
Qed.

(** X20.  The record of an item that is an object: its URL is the one
    of the item, or the empty text; when the item has an [id] the
    record has it, and when it has none but has a URL, the id of the
    record is that URL; and the nickname of an author without one is
    the name of the record's author. *)
Theorem mapItem_fallbacks (members : list (jsstring * Json)) r (v : Video) :
  (mapItem number_to_string (JObj members) r).1 = inr v →
  webVideoUrl v = orElse (member (lit "webVideoUrl") members) (JStr []) ∧
  (nullish (member (lit "id") members) = false →
   Some (id v) = member (lit "id") members) ∧
  (nullish (member (lit "id") members) = true →
   nullish (member (lit "webVideoUrl") members) = false →
   id v = webVideoUrl v) ∧
  (nullish (getOpt (member (lit "authorMeta") members) "nickName") = true →
   nickName (authorMeta v) = name (authorMeta v)).
Proof.
  unfold mapItem, mapId. cbn [getProp].
  destruct (member (lit "id") members) as [i |] eqn:Hid;
    destruct (member (lit "webVideoUrl") members) as [u |] eqn:Hurl.
  all: try destruct i; try destruct u.
  all: cbn -[lit]; rewrite ?Hurl; cbn -[lit]; intros [= <-]; cbn -[lit].
  all: repeat split; try done.
  all: intros H;
    by destruct (getOpt (member (lit "authorMeta") members) "nickName")
      as [[] |].
Qed.

End ApifyMore.

Section ApifyMoreInstances.
Import ApifyService ApifyFallback Examples.

(** An item with a URL and no id. *)
Lemma mapItem_fallbacks_witness :
  ∃ v, (mapItem printNumber itemWithUrl randomHalf).1 = inr v ∧
       id v = JStr (lit "v1") ∧ id v = webVideoUrl v.
Proof.
  eexists. split; [reflexivity |].
  destruct (mapItem_fallbacks printNumber _ randomHalf _
              (eq_refl : (mapItem printNumber itemWithUrl randomHalf).1
                         = inr _))
    as (_ & _ & H & _).
  split; [by vm_compute |]. apply H; by vm_compute.
Defined.

End ApifyMoreInstances.
(** ** The spacing of the calls *)

Section Spacing.
Import ResultsStep LocalStorageHook ResultsView.

Variables (P : gmap jsstring jsstring) (key : jsstring) (env : Env).

Implicit Types (st : ResultsStep.State) (tr ext cs : list Event).
Implicit Types (v : TikTokVideo) (items videos : list TikTokVideo).
Implicit Types (c i len : nat).






End Spacing.
